(** * email-scraper: a verification development for [main.py]

    The development embeds the [EmailScraper] class of [main.py]:

    - the pure text functions [find_email] and [find_contact_urls], on top
      of a small backtracking matcher for the two regular expressions the
      source uses;
    - the coroutines [fetch] and [process_website], as resumptions that
      suspend at every HTTP exchange and that read and update the
      class-level set [ALREADY_PROCESSED];
    - [scrape_emails], on top of a model of the asyncio event loop
      ([asyncio.gather]) and of the CSV writing loop.

    A call returns a value or raises an exception ([result]).  [fetch]
    catches what the exchange raises; the calls of [urlsplit] and [urljoin]
    are under no [try], so what they raise ends [process_website], and
    with it the batch run.

    Python [str] values are Rocq [string]s.  Every character class of the
    source is ASCII, so reading a [string] as the UTF-8 bytes of the text
    gives the same matches as Python finds on code points. *)

From Stdlib Require Import String Ascii List Bool Arith ZArith Lia.
From stdpp Require Import gmap strings list.

Local Open Scope string_scope.

(** ** Python [str] operations used by the source *)

Module Str.

(** [s.startswith(p)] *)
Fixpoint startswith (p s : string) : bool :=
  match p, s with
  | EmptyString, _ => true
  | String a p', String b s' => Ascii.eqb a b && startswith p' s'
  | String _ _, EmptyString => false
  end.

(** [sub in s] *)
Fixpoint contains (sub s : string) : bool :=
  startswith sub s ||
  match s with
  | EmptyString => false
  | String _ s' => contains sub s'
  end.

(** [s.endswith(suffix)] *)
Fixpoint endswith (suffix s : string) : bool :=
  String.eqb s suffix ||
  match s with
  | EmptyString => false
  | String _ s' => endswith suffix s'
  end.

(** [s.replace(old, new)] for a non-empty [old]: one pass from the left,
    occurrences do not overlap.  [skip] counts the characters of the
    occurrence just replaced that are still to be dropped. *)
Fixpoint replace_from (old new : string) (skip : nat) (s : string) : string :=
  match s with
  | EmptyString => EmptyString
  | String c s' =>
      match skip with
      | S k => replace_from old new k s'
      | O =>
          if startswith old s
          then new +:+ replace_from old new (String.length old - 1) s'
          else String c (replace_from old new 0 s')
      end
  end.

Definition replace (old new s : string) : string := replace_from old new 0 s.

(** [s.split(sep)[0]] for a one-character separator: the text before the
    first [sep], all of [s] when there is none. *)
Fixpoint split_head (sep : ascii) (s : string) : string :=
  match s with
  | EmptyString => EmptyString
  | String c s' => if Ascii.eqb c sep then EmptyString else String c (split_head sep s')
  end.

(** every character of [s] satisfies [cls] *)
Fixpoint all (cls : ascii -> bool) (s : string) : bool :=
  match s with
  | EmptyString => true
  | String c s' => cls c && all cls s'
  end.

(** [''.join(pieces)] *)
Fixpoint join (pieces : list string) : string :=
  match pieces with
  | [] => EmptyString
  | x :: xs => x +:+ join xs
  end.

(** Python truthiness of an [Optional[str]]: [None] and [''] are falsy. *)
Definition truthy (o : option string) : bool :=
  match o with
  | None | Some EmptyString => false
  | Some (String _ _) => true
  end.

End Str.

(** ** The fragment of [re] the source uses

    Both patterns of the source are sequences of single-character atoms: a
    character class matched once, or a character class under a greedy
    quantifier with a lower bound ([+], [*], [{2,}]).  The matcher is the
    backtracking one of Python's [re]: a quantified atom first takes as many
    characters as it can and gives them back one by one until the rest of
    the pattern matches. *)

Module Re.

Inductive atom : Type :=
| One (cls : ascii -> bool)                 (* [c] or [[...]] *)
| Many (cls : ascii -> bool) (min : nat).   (* [[...]{min,}], greedy *)

Definition pattern := list atom.

Definition lit (a : ascii) : ascii -> bool := Ascii.eqb a.

Definition in_range (lo hi c : ascii) : bool :=
  (Ascii.leb lo c && Ascii.leb c hi)%bool.

Definition one_of (chars : string) (c : ascii) : bool :=
  Str.contains (String c EmptyString) chars.

(** [[a-zA-Z]] and [[0-9]] *)
Definition alpha (c : ascii) : bool := in_range "a" "z" c || in_range "A" "Z" c.
Definition digit (c : ascii) : bool := in_range "0" "9" c.

(** the pattern of a literal text *)
Fixpoint literal (s : string) : pattern :=
  match s with
  | EmptyString => []
  | String c s' => One (lit c) :: literal s'
  end.

(** A quantified atom followed by the rest of the pattern, [rest_matches]:
    take one more character whenever the class allows it, and stop here
    if that leads nowhere.  The result lists the text consumed by the
    atom and by each atom after it. *)
Fixpoint greedy (cls : ascii -> bool) (rest_matches : string -> option (list string))
    (s : string) (min : nat) {struct s} : option (list string) :=
  let stop :=
    match min with
    | O => match rest_matches s with
           | Some g => Some (EmptyString :: g)
           | None => None
           end
    | S _ => None
    end in
  match s with
  | String c s' =>
      if cls c then
        match greedy cls rest_matches s' (Nat.pred min) with
        | Some (x :: g) => Some (String c x :: g)
        | _ => stop
        end
      else stop
  | EmptyString => stop
  end.

(** [match_here p s]: match [p] at the start of [s].  The result lists the
    text consumed by each atom of [p], in order. *)
Fixpoint match_here (p : pattern) (s : string) {struct p} : option (list string) :=
  match p with
  | [] => Some []
  | One cls :: p' =>
      match s with
      | String c s' =>
          if cls c then
            match match_here p' s' with
            | Some g => Some (String c EmptyString :: g)
            | None => None
            end
          else None
      | EmptyString => None
      end
  | Many cls min :: p' => greedy cls (match_here p') s min
  end.

(** [re.search(p, s)]: the match at the leftmost position that has one. *)
Fixpoint search (p : pattern) (s : string) : option (list string) :=
  match match_here p s with
  | Some g => Some g
  | None =>
      match s with
      | EmptyString => None
      | String _ s' => search p s'
      end
  end.

(** The matches [re.finditer(p, s)] visits: leftmost first, each search
    resuming where the previous match ended.  [skip] counts the characters
    of the previous match still to be passed over.  (The patterns of the
    source match no empty text, so the special treatment [re] gives to
    empty matches is not needed.) *)
Fixpoint finditer (p : pattern) (skip : nat) (s : string) {struct s}
  : list (list string) :=
  match s with
  | EmptyString =>
      match skip, match_here p EmptyString with
      | O, Some g => [g]
      | _, _ => []
      end
  | String _ s' =>
      match skip with
      | S k => finditer p k s'
      | O =>
          match match_here p s with
          | Some g => g :: finditer p (String.length (Str.join g) - 1) s'
          | None => finditer p 0 s'
          end
      end
  end.

(** [re.findall(p, s)] for a pattern whose only group is the atom number
    [group]: the text of that group in every match. *)
Definition findall (p : pattern) (group : nat) (s : string) : list string :=
  map (fun g => nth group g EmptyString) (finditer p 0 s).

End Re.

(** ** Exceptions

    The exceptions the scraper meets: those raised inside the [try] block
    of [fetch] (by aiohttp, or when the body of a response cannot be
    decoded), the [ValueError] of [urllib.parse], and the [TypeError] of
    unpacking [None].  All of them derive from [Exception], which is what
    the [except] clause of [fetch] catches; the cancellation of a task is
    not among them. *)
Inductive exn : Type :=
| ClientError
| TimeoutError
| InvalidURL
| UnicodeDecodeError
| ValueError
| TypeError.

(** what a call gives: the value it returns, or the exception it raises *)
Inductive result (A : Type) : Type :=
| Returns (a : A)
| Raises (e : exn).

Arguments Returns {A} a.
Arguments Raises {A} e.

Definition result_bind {A B : Type} (f : A -> result B) (r : result A) : result B :=
  match r with
  | Returns a => f a
  | Raises e => Raises e
  end.

#[export] Instance result_mret : MRet result := @Returns.
#[export] Instance result_mbind : MBind result := @result_bind.

(** ** A model of [urllib.parse]

    [urlsplit] and [urljoin] belong to the Python standard library.  The
    scraper is defined and verified for arbitrary functions in their place
    (section [Scraper]); each of them returns a value or raises.  This
    module follows [urllib/parse.py] and [ipaddress.py] of CPython 3.11
    function by function, for the worked examples.  A [string] is read as
    the UTF-8 bytes of a Python [str]. *)

Module Urllib.

Record SplitResult : Type := mkSplit {
  scheme : string;
  netloc : string;
  path : string;
  query : string;
  fragment : string
}.

Definition check (ok : bool) : result unit :=
  if ok then Returns tt else Raises ValueError.

(** *** [str] operations *)

Definition nonempty (s : string) : bool :=
  match s with EmptyString => false | String _ _ => true end.

Definition tail (s : string) : string :=
  match s with EmptyString => EmptyString | String _ s' => s' end.

(** [s[:-1]] *)
Fixpoint but_last (s : string) : string :=
  match s with
  | EmptyString => EmptyString
  | String c s' => match s' with EmptyString => EmptyString | _ => String c (but_last s') end
  end.

(** [s[n:]] *)
Fixpoint from (n : nat) (s : string) : string :=
  match n, s with
  | S n', String _ s' => from n' s'
  | _, _ => s
  end.

(** [s.lstrip(chars)], [s.rstrip(chars)] and [s.strip(chars)] *)
Fixpoint lstrip (chars : ascii -> bool) (s : string) : string :=
  match s with
  | EmptyString => EmptyString
  | String c s' => if chars c then lstrip chars s' else s
  end.

Fixpoint rstrip (chars : ascii -> bool) (s : string) : string :=
  match s with
  | EmptyString => EmptyString
  | String c s' =>
      match rstrip chars s' with
      | EmptyString => if chars c then EmptyString else String c EmptyString
      | r => String c r
      end
  end.

Definition strip (chars : ascii -> bool) (s : string) : string :=
  rstrip chars (lstrip chars s).

(** [s] with every character of [chars] removed *)
Fixpoint without (chars : ascii -> bool) (s : string) : string :=
  match s with
  | EmptyString => EmptyString
  | String c s' => if chars c then without chars s' else String c (without chars s')
  end.

(** [s] cut at the first character satisfying [stop]: the text before it,
    and the rest starting with that character. *)
Fixpoint break_at (stop : ascii -> bool) (s : string) : string * string :=
  match s with
  | EmptyString => (EmptyString, EmptyString)
  | String c s' =>
      if stop c then (EmptyString, s)
      else let '(a, b) := break_at stop s' in (String c a, b)
  end.

(** [s.rpartition(sep)[2]]: the text after the last [sep] *)
Fixpoint after_last (sep : ascii) (s : string) : string :=
  match s with
  | EmptyString => EmptyString
  | String c s' =>
      if Str.contains (String sep EmptyString) s' then after_last sep s'
      else if Ascii.eqb c sep then s' else s
  end.

(** [s.split(sep)] *)
Fixpoint split (sep : ascii) (s : string) : list string :=
  match s with
  | EmptyString => [EmptyString]
  | String c s' =>
      if Ascii.eqb c sep then EmptyString :: split sep s'
      else match split sep s' with
           | x :: xs => String c x :: xs
           | [] => [String c EmptyString]
           end
  end.

(** [sep.join(pieces)] *)
Fixpoint join (sep : string) (pieces : list string) : string :=
  match pieces with
  | [] => EmptyString
  | [x] => x
  | x :: xs => x +:+ sep +:+ join sep xs
  end.

(** [s.lower()] on ASCII text *)
Definition lower_char (c : ascii) : ascii :=
  if Re.in_range "A" "Z" c then ascii_of_nat (nat_of_ascii c + 32)%nat else c.

Fixpoint lower (s : string) : string :=
  match s with
  | EmptyString => EmptyString
  | String c s' => String (lower_char c) (lower s')
  end.

Definition mem (s : string) (l : list string) : bool := existsb (String.eqb s) l.

Definition has (c : ascii) (s : string) : bool := Str.contains (String c EmptyString) s.

(** *** [ipaddress]: is the text an IPv4 address, an IPv6 address? *)

Definition decimal (s : string) : nat :=
  fold_left (fun n c => 10 * n + (nat_of_ascii c - 48))%nat (list_ascii_of_string s) 0%nat.

(** [IPv4Address._parse_octet] does not raise *)
Definition octet_ok (octet_str : string) : bool :=
  if nonempty octet_str && Str.all Re.digit octet_str
     && (String.length octet_str <=? 3)%nat
     && (String.eqb octet_str "0" || negb (Str.startswith "0" octet_str))
  then (decimal octet_str <=? 255)%nat
  else false.

(** [IPv4Address(addr_str)] does not raise *)
Definition ipv4_ok (addr_str : string) : bool :=
  negb (has "/" addr_str)
  && nonempty addr_str
  && (let octets := split "." addr_str in
      (length octets =? 4)%nat && forallb octet_ok octets).

Definition hex_digit (c : ascii) : bool :=
  Re.digit c || Re.in_range "a" "f" c || Re.in_range "A" "F" c.

(** [IPv6Address._parse_hextet] does not raise *)
Definition hextet_ok (hextet_str : string) : bool :=
  Str.all hex_digit hextet_str
  && (String.length hextet_str <=? 4)%nat
  && nonempty hextet_str.

(** the positions [1 .. len(parts) - 2] that hold an empty part *)
Definition inner_gaps (parts : list string) : list nat :=
  List.filter (fun i => negb (nonempty (nth i parts EmptyString)))
    (seq 1 (length parts - 2)%nat).

(** [IPv6Address._ip_int_from_string] does not raise.  An IPv4 suffix is
    replaced by two hextets, whose value plays no part here. *)
Definition ipv6_parts_ok (ip_str : string) : bool :=
  nonempty ip_str &&
  let parts := split ":" ip_str in
  (3 <=? length parts)%nat &&
  let last_part := List.last parts EmptyString in
  (if has "." last_part then ipv4_ok last_part else true) &&
  let parts :=
    if has "." last_part then (removelast parts ++ ["0"; "0"])%list else parts in
  (length parts <=? 9)%nat &&
  let first_empty := negb (nonempty (nth 0 parts EmptyString)) in
  let last_empty := negb (nonempty (List.last parts EmptyString)) in
  match inner_gaps parts with
  | [skip_index] =>
      let parts_hi := (if first_empty then skip_index - 1 else skip_index)%nat in
      let parts_lo :=
        (if last_empty then length parts - skip_index - 1 - 1
         else length parts - skip_index - 1)%nat in
      (if first_empty then (parts_hi =? 0)%nat else true)
      && (if last_empty then (parts_lo =? 0)%nat else true)
      && (parts_hi + parts_lo <? 8)%nat
      && forallb hextet_ok (firstn parts_hi parts)
      && forallb hextet_ok (skipn (length parts - parts_lo)%nat parts)
  | [] =>
      (length parts =? 8)%nat && negb first_empty && negb last_empty
      && forallb hextet_ok parts
  | _ => false
  end.

(** [IPv6Address(addr_str)] does not raise *)
Definition ipv6_ok (addr_str : string) : bool :=
  negb (has "/" addr_str) &&
  let '(addr, rest) := break_at (Re.lit "%") addr_str in
  (match rest with
   | EmptyString => true
   | String _ scope_id => nonempty scope_id && negb (has "%" scope_id)
   end)
  && ipv6_parts_ok addr.

(** *** [urlsplit] *)

Definition scheme_char (c : ascii) : bool :=
  Re.alpha c || Re.digit c || Re.one_of "+-." c.

(** [_WHATWG_C0_CONTROL_OR_SPACE] and [_UNSAFE_URL_BYTES_TO_REMOVE] *)
Definition c0_control_or_space (c : ascii) : bool := (nat_of_ascii c <=? 32)%nat.

Definition unsafe_byte (c : ascii) : bool :=
  existsb (Ascii.eqb c) ["009"%char; "013"%char; "010"%char].

(** the pattern [\Av[a-fA-F0-9]+\..+\Z] of an IPvFuture address *)
Definition ipvfuture_pattern : Re.pattern :=
  [Re.One (Re.lit "v"); Re.Many hex_digit 1; Re.One (Re.lit ".");
   Re.Many (fun c => negb (Ascii.eqb c "010"%char)) 1].

Definition check_bracketed_host (hostname : string) : result unit :=
  if Str.startswith "v" hostname then
    check match Re.match_here ipvfuture_pattern hostname with
          | Some g => String.eqb (Str.join g) hostname
          | None => false
          end
  else if ipv4_ok hostname then Raises ValueError
  else check (ipv6_ok hostname).

Definition check_bracketed_netloc (netloc : string) : result unit :=
  let hostname_and_port := after_last "@" netloc in
  let '(before_bracket, rest) := break_at (Re.lit "[") hostname_and_port in
  match rest with
  | String _ bracketed =>
      _ ← check (negb (nonempty before_bracket));
      let '(hostname, rest) := break_at (Re.lit "]") bracketed in
      let port := tail rest in
      _ ← check (negb (nonempty port) || Str.startswith ":" port);
      check_bracketed_host hostname
  | EmptyString =>
      check_bracketed_host (fst (break_at (Re.lit ":") hostname_and_port))
  end.

Definition utf8 (bytes : list nat) : string :=
  fold_right (fun b s => String (ascii_of_nat b) s) EmptyString bytes.

(** The characters whose NFKC normal form contains one of [/?#@:], in
    UTF-8: U+2047 to U+2049, U+2100, U+2101, U+2105, U+2106, U+2A74,
    U+FE13, U+FE16, U+FE55, U+FE56, U+FE5F, U+FE6B, U+FF03, U+FF0F, U+FF1A,
    U+FF1F and U+FF20. *)
Definition nfkc_delimiters : list string :=
  map utf8
    [[226; 129; 135]; [226; 129; 136]; [226; 129; 137]; [226; 132; 128];
     [226; 132; 129]; [226; 132; 133]; [226; 132; 134]; [226; 169; 180];
     [239; 184; 147]; [239; 184; 150]; [239; 185; 149]; [239; 185; 150];
     [239; 185; 159]; [239; 185; 171]; [239; 188; 131]; [239; 188; 143];
     [239; 188; 154]; [239; 188; 159]; [239; 188; 160]].

(** [_checknetloc]: a host that is not ASCII must not hold a character
    that NFKC normalisation turns into a delimiter *)
Definition checknetloc (netloc : string) : result unit :=
  let n := without (Re.one_of "@:#?") netloc in
  check (negb (existsb (fun d => Str.contains d n) nfkc_delimiters)).

(** [urlsplit(url, scheme)] *)
Definition urlsplit_with (scheme url : string) : result SplitResult :=
  let url := without unsafe_byte (lstrip c0_control_or_space url) in
  let scheme := without unsafe_byte (strip c0_control_or_space scheme) in
  let '(scheme, url) :=
    let '(before, rest) := break_at (Re.lit ":") url in
    match before, rest with
    | String c _, String _ after =>
        if Re.alpha c && Str.all scheme_char before
        then (lower before, after) else (scheme, url)
    | _, _ => (scheme, url)
    end in
  '(netloc, url) ←
    (if Str.startswith "//" url then
       let '(netloc, rest) := break_at (Re.one_of "/?#") (from 2 url) in
       _ ← check (negb (has "[" netloc && negb (has "]" netloc)
                       || has "]" netloc && negb (has "[" netloc)));
       _ ← (if has "[" netloc && has "]" netloc
            then check_bracketed_netloc netloc else Returns tt);
       Returns (netloc, rest)
     else Returns (EmptyString, url));
  let '(url, rest) := break_at (Re.lit "#") url in
  let fragment := tail rest in
  let '(url, rest) := break_at (Re.lit "?") url in
  let query := tail rest in
  _ ← checknetloc netloc;
  Returns (mkSplit scheme netloc url query fragment).

Definition urlsplit (url : string) : result SplitResult :=
  urlsplit_with EmptyString url.

(** *** [urljoin] *)

Definition uses_relative : list string :=
  [""; "ftp"; "http"; "gopher"; "nntp"; "imap"; "wais"; "file"; "https";
   "shttp"; "mms"; "prospero"; "rtsp"; "rtspu"; "sftp"; "svn"; "svn+ssh";
   "ws"; "wss"].

Definition uses_netloc : list string :=
  [""; "ftp"; "http"; "gopher"; "nntp"; "telnet"; "imap"; "wais"; "file";
   "mms"; "https"; "shttp"; "snews"; "prospero"; "rtsp"; "rtspu"; "rsync";
   "svn"; "svn+ssh"; "sftp"; "nfs"; "git"; "git+ssh"; "ws"; "wss"].

Definition uses_params : list string :=
  [""; "ftp"; "hdl"; "prospero"; "http"; "imap"; "https"; "shttp"; "rtsp";
   "rtspu"; "sip"; "sips"; "mms"; "sftp"; "tel"].

(** [_splitparams] *)
Definition splitparams (url : string) : string * string :=
  if has "/" url then
    let last_segment := after_last "/" url in
    let '(before, rest) := break_at (Re.lit ";") last_segment in
    match rest with
    | EmptyString => (url, EmptyString)
    | String _ after =>
        (substring 0 (String.length url - String.length last_segment)%nat url +:+ before,
         after)
    end
  else
    let '(before, rest) := break_at (Re.lit ";") url in
    match rest with
    | EmptyString => (but_last url, url)
    | String _ after => (before, after)
    end.

(** [urlparse(url, scheme)]: the split result, with the parameters taken
    off its path, and the parameters *)
Definition urlparse_with (default url : string) : result (SplitResult * string) :=
  r ← urlsplit_with default url;
  if mem (scheme r) uses_params && has ";" (path r) then
    let '(url, params) := splitparams (path r) in
    Returns (mkSplit (scheme r) (netloc r) url (query r) (fragment r), params)
  else Returns (r, EmptyString).

(** [urlunsplit] *)
Definition urlunsplit (r : SplitResult) : string :=
  let url := path r in
  let url :=
    if nonempty (netloc r)
       || (nonempty (scheme r) && mem (scheme r) uses_netloc
           && negb (Str.startswith "//" url))
    then "//" +:+ netloc r +:+
         (if nonempty url && negb (Str.startswith "/" url) then "/" +:+ url else url)
    else url in
  let url := if nonempty (scheme r) then scheme r +:+ ":" +:+ url else url in
  let url := if nonempty (query r) then url +:+ "?" +:+ query r else url in
  if nonempty (fragment r) then url +:+ "#" +:+ fragment r else url.

(** [urlunparse] *)
Definition urlunparse (r : SplitResult) (params : string) : string :=
  urlunsplit
    (mkSplit (scheme r) (netloc r)
       (if nonempty params then path r +:+ ";" +:+ params else path r)
       (query r) (fragment r)).

(** the loop of [urljoin] that removes [.] and [..]; [acc] is
    [resolved_path] *)
Fixpoint resolve_dots (acc segments : list string) : list string :=
  match segments with
  | [] => acc
  | seg :: rest =>
      if String.eqb seg ".." then resolve_dots (removelast acc) rest
      else if String.eqb seg "." then resolve_dots acc rest
      else resolve_dots (acc ++ [seg])%list rest
  end.

(** [segments[1:-1] = filter(None, segments[1:-1])] *)
Definition drop_empty_inner (segments : list string) : list string :=
  match segments with
  | first :: (_ :: _) as rest =>
      first :: (List.filter nonempty (removelast rest) ++ [List.last rest EmptyString])%list
  | _ => segments
  end.

Definition urljoin (base url : string) : result string :=
  if negb (nonempty base) then Returns url
  else if negb (nonempty url) then Returns base
  else
    '(b, bparams) ← urlparse_with EmptyString base;
    '(u, params) ← urlparse_with (scheme b) url;
    if negb (String.eqb (scheme u) (scheme b)) || negb (mem (scheme u) uses_relative)
    then Returns url
    else if mem (scheme u) uses_netloc && nonempty (netloc u)
    then Returns (urlunparse u params)
    else
      let netloc := if mem (scheme u) uses_netloc then netloc b else netloc u in
      if negb (nonempty (path u)) && negb (nonempty params)
      then Returns
             (urlunparse
                (mkSplit (scheme u) netloc (path b)
                   (if nonempty (query u) then query u else query b) (fragment u))
                bparams)
      else
        let base_parts :=
          let parts := split "/" (path b) in
          if nonempty (List.last parts EmptyString) then removelast parts else parts in
        let segments :=
          if Str.startswith "/" (path u) then split "/" (path u)
          else drop_empty_inner (base_parts ++ split "/" (path u))%list in
        let resolved_path := resolve_dots [] segments in
        let resolved_path :=
          if mem (List.last segments EmptyString) ["."; ".."]
          then (resolved_path ++ [EmptyString])%list else resolved_path in
        let joined := join "/" resolved_path in
        Returns
          (urlunparse
             (mkSplit (scheme u) netloc (if nonempty joined then joined else "/")
                (query u) (fragment u))
             params).

End Urllib.

(** ** The scraper *)

(** What the body of [fetch]'s [try] block observes of one HTTP exchange:
    an exception raised by [session.get(url)], or a response with its
    status and with what [await response.text()] gives, which is the text
    of the body or an exception (a body that cannot be decoded, a
    connection lost while the body is read). *)
Inductive outcome : Type :=
| Response (status : Z) (text : result string)
| Raised (e : exn).

(** A coroutine of the scraper, as a resumption.  Between two suspension
    points a coroutine runs without interruption (asyncio is cooperative); it
    is suspended exactly while an HTTP exchange is in flight.  The other two
    operations are the accesses to the shared set.  A coroutine that can
    raise ends with a [result]. *)
Inductive coro (A : Type) : Type :=
| Ret (a : A)
| IsProcessed (homepage : string) (k : bool -> coro A)   (* [homepage in self.ALREADY_PROCESSED] *)
| AddProcessed (homepage : string) (k : coro A)          (* [self.ALREADY_PROCESSED.add(homepage)] *)
| Exchange (url : string) (k : outcome -> coro A).       (* [async with session.get(url) as response: ...] *)

Arguments Ret {A} a.
Arguments IsProcessed {A} homepage k.
Arguments AddProcessed {A} homepage k.
Arguments Exchange {A} url k.

Fixpoint coro_bind {A B : Type} (f : A -> coro B) (c : coro A) : coro B :=
  match c with
  | Ret a => f a
  | IsProcessed h k => IsProcessed h (fun b => coro_bind f (k b))
  | AddProcessed h k => AddProcessed h (coro_bind f k)
  | Exchange url k => Exchange url (fun o => coro_bind f (k o))
  end.

#[export] Instance coro_mret : MRet coro := @Ret.
#[export] Instance coro_mbind : MBind coro := @coro_bind.

(** the double quote character, and an anchor tag with the given [href] *)
Definition dquote : ascii := "034"%char.
Definition quoted (s : string) : string := String dquote s +:+ String dquote EmptyString.
Definition anchor (href : string) : string := "<a href=" +:+ quoted href +:+ ">".

Module EmailScraper.

(** [[a-zA-Z0-9._%+-]] and [[a-zA-Z0-9.-]] *)
Definition local_char (c : ascii) : bool :=
  Re.alpha c || Re.digit c || Re.one_of "._%+-" c.
Definition domain_char (c : ascii) : bool :=
  Re.alpha c || Re.digit c || Re.one_of ".-" c.

(** The pattern of [find_email]:
    [[a-zA-Z0-9._%+-]+@[a-zA-Z0-9.-]+\.[a-zA-Z]{2,}] *)
Definition email_pattern : Re.pattern :=
  [Re.Many local_char 1; Re.One (Re.lit "@"); Re.Many domain_char 1;
   Re.One (Re.lit "."); Re.Many Re.alpha 2].

Definition image_extensions : list string :=
  ["png"; "jpg"; "jpeg"; "gif"; "svg"; "bmp"; "webp"].

(** [find_email] is declared [async] but awaits nothing: a pure function. *)
Definition find_email (content : string) : option string :=
  match content with
  | EmptyString => None
  | _ =>
      let result :=
        match Re.search email_pattern content with
        | Some g => Some (Str.join g)
        | None => None
        end in
      match result with
      | Some (String _ _ as result) =>
          if existsb (fun extension => Str.endswith extension result) image_extensions
          then None
          else Some result
      | _ => None
      end
  end.

(** The pattern of [find_contact_urls]: the text [href=], a double quote,
    the group (any run of characters other than the double quote, greedy,
    possibly empty) and a closing double quote.  The group is atom
    number 6. *)
Definition href_pattern : Re.pattern :=
  (Re.literal "href=" ++ [Re.One (Re.lit dquote);
     Re.Many (fun c => negb (Re.lit dquote c)) 0; Re.One (Re.lit dquote)])%list.

Definition hrefs (content : string) : list string := Re.findall href_pattern 6 content.

Definition contact_words : list string := ["contact"; "about"; "terms"].

Section Scraper.

(** The two library functions: each returns a value or raises (for a
    [str] argument, [ValueError]). *)
Variable urlsplit : string -> result Urllib.SplitResult.
Variable urljoin : string -> string -> result string.

(** [extract_homepage] raises what [urlsplit] raises *)
Definition extract_homepage (url : string) : result string :=
  parsed_url ← urlsplit url;
  mret (Urllib.scheme parsed_url +:+ "://" +:+ Urllib.netloc parsed_url).

(** The [for url in urls] loop of [find_contact_urls].  The call of
    [urljoin] is under no [try]: when it raises, so does the function. *)
Fixpoint scan_hrefs (current_website_url : string) (contact_urls urls : list string)
  : result (list string) :=
  match urls with
  | [] => mret contact_urls
  | url :: rest =>
      if Str.contains "mailto:" url then
        let email := Str.split_head "?" (Str.replace "mailto:" "" url) in
        if Str.truthy (Some email) then mret [email]
        else scan_hrefs current_website_url contact_urls rest
      else if existsb (fun sub => Str.contains sub url) contact_words then
        link ← (if negb (Str.contains "http" url)
                then urljoin current_website_url url else mret url);
        scan_hrefs current_website_url (contact_urls ++ [link])%list rest
      else scan_hrefs current_website_url contact_urls rest
  end.

Definition find_contact_urls (current_website_url content : string)
  : result (list string) :=
  scan_hrefs current_website_url [] (hrefs content).

(** [fetch]: everything the exchange raises is caught *)
Definition fetch (url : string) : coro (option string) :=
  response ← Exchange url Ret;
  match response with
  | Response status text =>
      if (status =? 200)%Z then
        match text with
        | Returns text => mret (Some text)
        | Raises _ => mret None
        end
      else mret None
  | Raised _ => mret None
  end.

(** the [for contact_url in contact_urls] loop of [process_website];
    [email] is the variable of that name *)
Fixpoint follow_contacts (email : option string) (contact_urls : list string)
  : coro (option string) :=
  match contact_urls with
  | [] => mret email
  | contact_url :: rest =>
      if Str.contains "@" contact_url then mret (Some contact_url)
      else
        content ← fetch contact_url;
        if negb (Str.truthy content) then follow_contacts email rest
        else
          let email := find_email (default "" content) in
          if Str.truthy email then mret email
          else follow_contacts email rest
  end.

(** [process_website] ends with the pair or the [None] it returns, or with
    the exception that [extract_homepage] or [find_contact_urls] raised:
    neither call is under a [try]. *)
Definition process_website (url : string)
  : coro (result (option (string * option string))) :=
  match extract_homepage url with
  | Raises e => mret (Raises e)
  | Returns homepage =>
      seen ← IsProcessed homepage Ret;
      if negb seen then
        content ← fetch homepage;
        AddProcessed homepage
          (if negb (Str.truthy content) then mret (Returns (Some (homepage, None)))
           else
             let email := find_email (default "" content) in
             if negb (Str.truthy email) then
               match find_contact_urls homepage (default "" content) with
               | Raises e => mret (Raises e)
               | Returns contact_urls =>
                   email ← follow_contacts email contact_urls;
                   mret (Returns (Some (homepage, email)))
               end
             else mret (Returns (Some (homepage, email))))
      else mret (Returns None)
  end.

(** *** Running coroutines

    The state of the Python process that the scraper touches: the class
    attribute [ALREADY_PROCESSED] (created once, when the class body is
    executed), the outside world behind the HTTP session, and, as an
    instrument for the proofs, the URLs requested so far in the order
    the requests were started. *)

Variable World : Type.
Variable session_get : string -> World -> outcome * World.

Record process : Type := mkProcess {
  ALREADY_PROCESSED : gset string;
  network : World;
  requests : list string
}.

(** the state of a freshly started interpreter *)
Definition fresh (w : World) : process := mkProcess ∅ w [].

(** [await c] with nothing else scheduled: every exchange is answered
    before anything else runs. *)
Fixpoint await {A : Type} (c : coro A) (p : process) : A * process :=
  match c with
  | Ret a => (a, p)
  | IsProcessed h k => await (k (bool_decide (h ∈ ALREADY_PROCESSED p))) p
  | AddProcessed h k =>
      await k (mkProcess ({[h]} ∪ ALREADY_PROCESSED p) (network p) (requests p))
  | Exchange url k =>
      let '(response, w) := session_get url (network p) in
      await (k response)
        (mkProcess (ALREADY_PROCESSED p) w (requests p ++ [url])%list)
  end.

(** *** The event loop

    [advance c seen] runs [c] up to its next suspension point, or to its
    end, on the shared set [seen]. *)
Inductive progress (A : Type) : Type :=
| Finished (a : A)
| Suspended (url : string) (k : outcome -> coro A).
Arguments Finished {A} a.
Arguments Suspended {A} url k.

Fixpoint advance {A : Type} (c : coro A) (seen : gset string)
  : gset string * progress A :=
  match c with
  | Ret a => (seen, Finished a)
  | IsProcessed h k => advance (k (bool_decide (h ∈ seen))) seen
  | AddProcessed h k => advance k ({[h]} ∪ seen)
  | Exchange url k => (seen, Suspended url k)
  end.

(** The loop keeps the tasks that can run in a first-in first-out queue
    ([ready]), the tasks whose exchange is in flight ([waiting]) and the
    results of the tasks that returned ([finished]).  Tasks are numbered
    by their position in the argument list of [asyncio.gather]. *)
Record loop (A : Type) : Type := mkLoop {
  proc : process;
  ready : list (nat * coro A);
  waiting : list (nat * (string * (outcome -> coro A)));
  finished : gmap nat A
}.
Arguments mkLoop {A} proc ready waiting finished.
Arguments proc {A} l.
Arguments ready {A} l.
Arguments waiting {A} l.
Arguments finished {A} l.

(** What happens next is either that the loop runs the task at the head
    of the queue up to its next suspension point, or that the exchange
    of the waiting task number [j] ends and the task is queued again.
    Which exchange ends first is up to the network: a schedule is a list
    of events. *)
Inductive event : Type :=
| Step
| Arrive (j : nat).

Definition loop_step {A : Type} (e : event) (l : loop A) : option (loop A) :=
  match e with
  | Step =>
      match ready l with
      | [] => None
      | (i, c) :: rest =>
          let p := proc l in
          match advance c (ALREADY_PROCESSED p) with
          | (seen, Finished a) =>
              Some (mkLoop (mkProcess seen (network p) (requests p))
                      rest (waiting l) (<[i := a]> (finished l)))
          | (seen, Suspended url k) =>
              Some (mkLoop (mkProcess seen (network p) (requests p ++ [url])%list)
                      rest (waiting l ++ [(i, (url, k))])%list (finished l))
          end
      end
  | Arrive j =>
      match waiting l !! j with
      | None => None
      | Some (i, (url, k)) =>
          let p := proc l in
          let '(response, w) := session_get url (network p) in
          Some (mkLoop (mkProcess (ALREADY_PROCESSED p) w (requests p))
                  (ready l ++ [(i, k response)])%list (delete j (waiting l))
                  (finished l))
      end
  end.

Fixpoint loop_run {A : Type} (schedule : list event) (l : loop A)
  : option (loop A) :=
  match schedule with
  | [] => Some l
  | e :: schedule' =>
      match loop_step e l with
      | Some l' => loop_run schedule' l'
      | None => None
      end
  end.

Definition idle {A : Type} (l : loop A) : bool :=
  match ready l, waiting l with
  | [], [] => true
  | _, _ => false
  end.

(** the exception of a task, among the first [n], that has raised *)
Definition raised_task {A : Type} (n : nat) (l : loop (result A)) : option exn :=
  head (omap (fun i => match finished l !! i with
                       | Some (Raises e) => Some e
                       | _ => None
                       end) (seq 0 n)).

(** what the task number [i] returned *)
Definition returned {A : Type} (l : loop (result A)) (i : nat) : option A :=
  match finished l !! i with
  | Some (Returns a) => Some a
  | _ => None
  end.

(** [asyncio.gather], awaited, on [n] tasks.  As soon as a task has
    raised, [gather] raises that exception in the coroutine that awaits it;
    the other tasks are not cancelled and run on, so the rest of the
    schedule is theirs.  When no task is left and none has raised, the
    results come back in the order of the tasks. *)
Fixpoint gather_loop {A : Type} (n : nat) (schedule : list event)
    (l : loop (result A)) : option (result (list A) * process) :=
  match raised_task n l with
  | Some e =>
      match loop_run schedule l with
      | Some l' => Some (Raises e, proc l')
      | None => None
      end
  | None =>
      match schedule with
      | [] =>
          if idle l
          then match mapM (returned l) (seq 0 n) with
               | Some results => Some (Returns results, proc l)
               | None => None
               end
          else None
      | e :: schedule' =>
          match loop_step e l with
          | Some l' => gather_loop n schedule' l'
          | None => None
          end
      end
  end.

(** [asyncio.gather] on the coroutines [coros]: every coroutine becomes a
    task, and the tasks are queued in the order of the arguments.  [None] when the schedule is
    not one of this run (it names an exchange that is not in flight, or it
    stops before the tasks are done). *)
Definition gather {A : Type} (coros : list (coro (result A))) (schedule : list event)
    (p : process) : option (result (list A) * process) :=
  gather_loop (length coros) schedule (mkLoop p (imap (fun i c => (i, c)) coros) [] ∅).

(** The report: the rows written to [emails.csv], and the exception that
    ended the writing loop, if any.  [for url, email in results] raises
    [TypeError] when an element of [results] is [None]. *)
Record report : Type := mkReport {
  rows : list (list string);
  raised : option exn
}.

Fixpoint write_rows (results : list (option (string * option string))) : report :=
  match results with
  | [] => mkReport [] None
  | None :: _ => mkReport [] (Some TypeError)
  | Some (url, email) :: rest =>
      let r := write_rows rest in
      mkReport
        ((if Str.truthy email then [[url; default "" email]] else []) ++ rows r)%list
        (raised r)
  end.

(** [scrape_emails], from the list [urls] that [search_keyword] returned.
    When [gather] raises, [emails.csv] is not opened: there is no report. *)
Definition scrape_emails (urls : list string) (schedule : list event)
    (p : process) : option (result report * process) :=
  match gather (map process_website urls) schedule p with
  | Some (Returns results, p') =>
      let r := write_rows results in
      Some (Returns (mkReport (["Website"; "Email"] :: rows r) (raised r)), p')
  | Some (Raises e, p') => Some (Raises e, p')
  | None => None
  end.

End Scraper.

Arguments Finished {A} a.
Arguments Suspended {A} url k.
Arguments mkLoop {World A} proc ready waiting finished.
Arguments proc {World A} l.
Arguments ready {World A} l.
Arguments waiting {World A} l.
Arguments finished {World A} l.
Arguments mkProcess {World} ALREADY_PROCESSED network requests.
Arguments ALREADY_PROCESSED {World} p.
Arguments network {World} p.
Arguments requests {World} p.
Arguments fresh {World} w.
Arguments idle {World A} l.
Arguments raised_task {World A} n l.
Arguments returned {World A} l i.

End EmailScraper.

(** ** Fixtures and specification-side definitions *)

(** A world that answers every request from a fixed table and never
    changes; a URL that is not in the table cannot be reached. *)
Fixpoint lookup_page (pages : list (string * outcome)) (url : string) : outcome :=
  match pages with
  | [] => Raised ClientError
  | (u, o) :: rest => if String.eqb u url then o else lookup_page rest url
  end.

Definition static_web (pages : list (string * outcome)) (url : string) (w : unit)
  : outcome * unit :=
  (lookup_page pages url, w).

(** a site whose homepage shows no address and links to three pages, the
    first of which is missing; and a site that is down *)
Definition small_web : string → unit → outcome * unit :=
  static_web
    [("https://a.com",
      Response 200
        (Returns
           ("<h1>A</h1>" +:+ anchor "/contact" +:+ anchor "/about" +:+ anchor "/terms")));
     ("https://a.com/contact", Response 404 (Returns "not found"));
     ("https://a.com/about", Response 200 (Returns "write to bob@a.com"));
     ("https://a.com/terms", Response 200 (Returns "legal@a.com"));
     ("https://down.example", Response 503 (Returns "unavailable"))].

(** a site that answers with status 200 and a body that is not text; and a
    site whose homepage has a link that [urljoin] rejects *)
Definition garbled_web : string → unit → outcome * unit :=
  static_web
    [("https://raw.example", Response 200 (Raises UnicodeDecodeError));
     ("https://b.org",
      Response 200 (Returns ("<h1>B</h1>" +:+ anchor "//[contact" +:+ anchor "/about")));
     ("https://b.org/about", Response 200 (Returns "write to eve@b.org"))].

(** a schedule for one task that makes three requests, and one for two
    such tasks whose exchanges end in the order they were started *)
Definition single_schedule : list EmailScraper.event :=
  [EmailScraper.Step; EmailScraper.Arrive 0; EmailScraper.Step; EmailScraper.Arrive 0;
   EmailScraper.Step; EmailScraper.Arrive 0; EmailScraper.Step].

Definition pair_schedule : list EmailScraper.event :=
  [EmailScraper.Step; EmailScraper.Step; EmailScraper.Arrive 0; EmailScraper.Arrive 0;
   EmailScraper.Step; EmailScraper.Step; EmailScraper.Arrive 0; EmailScraper.Arrive 0;
   EmailScraper.Step; EmailScraper.Step; EmailScraper.Arrive 0; EmailScraper.Arrive 0;
   EmailScraper.Step; EmailScraper.Step].

(** the process after a first run of [scrape_emails] on one URL of the site
    [https://a.com] *)
Definition after_first_run : EmailScraper.process unit :=
  EmailScraper.mkProcess {["https://a.com"]} tt
    ["https://a.com"; "https://a.com/contact"; "https://a.com/about"].

(** the process after one run on two URLs of the site [https://a.com] *)
Definition after_both_visits : EmailScraper.process unit :=
  EmailScraper.mkProcess {["https://a.com"]} tt
    ["https://a.com"; "https://a.com"; "https://a.com/contact"; "https://a.com/contact";
     "https://a.com/about"; "https://a.com/about"].

(** the text an atom of a pattern may consume *)
Definition piece_ok (a : Re.atom) (x : string) : Prop :=
  match a with
  | Re.One cls => ∃ c, x = String c "" ∧ cls c = true
  | Re.Many cls min => Str.all cls x = true ∧ (min ≤ String.length x)%nat
  end.

(** The email pattern as section 4.2 of the specification words it: a
    non-empty local part, [@], a non-empty domain, a dot and at least two
    letters. *)
Definition email_shape (m : string) : Prop :=
  ∃ l d t : string,
    m = l +:+ "@" +:+ d +:+ "." +:+ t ∧
    l ≠ "" ∧ Str.all EmailScraper.local_char l = true ∧
    d ≠ "" ∧ Str.all EmailScraper.domain_char d = true ∧
    (2 ≤ String.length t)%nat ∧ Str.all Re.alpha t = true.

(** [m] is the first match of the email pattern in [content]: it occurs
    there, no match starts further to the left, and no match that starts at
    the same place is longer. *)
Definition first_email (content m : string) : Prop :=
  ∃ before after : string,
    content = before +:+ m +:+ after ∧
    email_shape m ∧
    (∀ before' m' after',
        content = before' +:+ m' +:+ after' → email_shape m' →
        (String.length before ≤ String.length before')%nat) ∧
    (∀ m' after',
        m +:+ after = m' +:+ after' → email_shape m' →
        (String.length m' ≤ String.length m)%nat).

(** [m] ends with one of the image extensions *)
Definition image_suffixed (m : string) : bool :=
  existsb (fun extension => Str.endswith extension m) EmailScraper.image_extensions.

(** the text left of an href value once every [mailto:] is removed and the
    query is cut off *)
Definition mailto_address (url : string) : string :=
  Str.split_head "?" (Str.replace "mailto:" "" url).

(** the loop of [find_contact_urls] goes past [url] without returning *)
Definition passed_over (url : string) : Prop :=
  Str.contains "mailto:" url = false ∨ mailto_address url = "".

Definition has_contact_word (url : string) : bool :=
  existsb (fun sub => Str.contains sub url) EmailScraper.contact_words.

(** the href values that [find_contact_urls] collects as links, and the
    link each of them becomes *)
Definition collected (url : string) : bool :=
  negb (Str.contains "mailto:" url) && has_contact_word url.

Definition resolve_link (urljoin : string -> string -> result string)
    (base url : string) : result string :=
  if Str.contains "http" url then Returns url else urljoin base url.

(** the values of a list of calls made one after the other, or the first
    exception *)
Fixpoint collect {A : Type} (calls : list (result A)) : result (list A) :=
  match calls with
  | [] => Returns []
  | call :: rest =>
      match call, collect rest with
      | Returns a, Returns l => Returns (a :: l)
      | Returns _, Raises e => Raises e
      | Raises e, _ => Raises e
      end
  end.

(** the links that [find_contact_urls] makes of the href values [urls] it
    collects *)
Definition resolved_links (urljoin : string -> string -> result string)
    (base : string) (urls : list string) : result (list string) :=
  collect (map (resolve_link urljoin base) (List.filter collected urls)).

(** what [fetch] returns for an outcome of the exchange *)
Definition fetched_text (o : outcome) : option string :=
  match o with
  | Response status (Returns text) => if (status =? 200)%Z then Some text else None
  | Response _ (Raises _) => None
  | Raised _ => None
  end.

(** every value the coroutine [c] can return satisfies [Q] *)
Fixpoint returns {A : Type} (Q : A → Prop) (c : coro A) : Prop :=
  match c with
  | Ret a => Q a
  | IsProcessed _ k => ∀ seen, returns Q (k seen)
  | AddProcessed _ k => returns Q k
  | Exchange _ k => ∀ response, returns Q (k response)
  end.

(** on every path to its end, the coroutine [c] adds [homepage] to the set *)
Fixpoint adds {A : Type} (homepage : string) (c : coro A) : Prop :=
  match c with
  | Ret _ => False
  | IsProcessed _ k => ∀ seen, adds homepage (k seen)
  | AddProcessed h k => h = homepage ∨ adds homepage k
  | Exchange _ k => ∀ response, adds homepage (k response)
  end.

(** An invariant of the event loop about the task number [i]: [Pr] holds of
    it while it is queued, [Pw] while it waits for its exchange, and [Pd]
    of its result once it is done; each may depend on the shared set. *)
Definition task_holds {World A : Type} (i : nat)
    (Pr : gset string → coro A → Prop)
    (Pw : gset string → string * (outcome → coro A) → Prop)
    (Pd : gset string → A → Prop)
    (l : EmailScraper.loop World A) : Prop :=
  let seen := EmailScraper.ALREADY_PROCESSED (EmailScraper.proc l) in
  (∀ c, (i, c) ∈ EmailScraper.ready l → Pr seen c) ∧
  (∀ x, (i, x) ∈ EmailScraper.waiting l → Pw seen x) ∧
  (∀ r, EmailScraper.finished l !! i = Some r → Pd seen r).

(** the part of [process_website] that runs once the fetch of the homepage
    has returned [content] *)
Definition scan_site (urljoin : string → string → result string) (homepage : string)
    (content : option string) : coro (result (option (string * option string))) :=
  AddProcessed homepage
    (if negb (Str.truthy content) then mret (Returns (Some (homepage, None)))
     else
       let email := EmailScraper.find_email (default "" content) in
       if negb (Str.truthy email) then
         match EmailScraper.find_contact_urls urljoin homepage (default "" content) with
         | Raises e => mret (Raises e)
         | Returns contact_urls =>
             email ← EmailScraper.follow_contacts email contact_urls;
             mret (Returns (Some (homepage, email)))
         end
       else mret (Returns (Some (homepage, email)))).

(** how a task of [process_website] that has fetched [homepage] ends: with a
    pair for [homepage], or with an exception *)
Definition result_for (homepage : string)
    (r : result (option (string * option string))) : Prop :=
  match r with
  | Returns r => ∃ email, r = Some (homepage, email)
  | Raises _ => True
  end.

(** the requests that open a batch run from the set [seen]: one for the
    homepage of every URL that has one and whose homepage is not in [seen],
    in the order of the URLs, a homepage as often as it has URLs *)
Definition first_requests (urlsplit : string → result Urllib.SplitResult)
    (seen : gset string) (urls : list string) : list string :=
  flat_map
    (λ url, match EmailScraper.extract_homepage urlsplit url with
            | Returns h => if bool_decide (h ∈ seen) then [] else [h]
            | Raises _ => []
            end)
    urls.

(** how the task of [url] ends in a batch run that starts from the set
    [seen] *)
Definition expected_result (urlsplit : string → result Urllib.SplitResult)
    (seen : gset string) (url : string)
    (r : result (option (string * option string))) : Prop :=
  match EmailScraper.extract_homepage urlsplit url with
  | Returns h => if bool_decide (h ∈ seen) then r = Returns None else result_for h r
  | Raises e => r = Raises e
  end.

(** An invariant of a batch run on [urls] that started in the process state
    [p0].  The queue holds the tasks that have not run yet, in the order of
    [urls], followed by the tasks that were resumed; as long as a task has
    not run yet, the set is the one of [p0] and the only requests made are
    the opening ones. *)
Definition started (urlsplit : string → result Urllib.SplitResult)
    (urljoin : string → string → result string) {World : Type}
    (urls : list string) (p0 : EmailScraper.process World)
    (l : EmailScraper.loop World (result (option (string * option string)))) : Prop :=
  let seen0 := EmailScraper.ALREADY_PROCESSED p0 in
  let home := EmailScraper.extract_homepage urlsplit in
  ∃ (k : nat) resumed,
    (k ≤ length urls)%nat ∧
    EmailScraper.ready l
    = (drop k (imap (λ i c, (i, c))
                 (map (EmailScraper.process_website urlsplit urljoin) urls))
       ++ resumed)%list ∧
    (∀ i c, (i, c) ∈ resumed →
            ∃ url h, urls !! i = Some url ∧ home url = Returns h ∧ (h ∉ seen0) ∧
                     returns (result_for h) c) ∧
    (∀ i x, (i, x) ∈ EmailScraper.waiting l →
            ∃ url h, urls !! i = Some url ∧ home url = Returns h ∧ (h ∉ seen0) ∧
                     ∀ o, returns (result_for h) (x.2 o)) ∧
    (∀ i r, EmailScraper.finished l !! i = Some r →
            ∃ url, urls !! i = Some url ∧ expected_result urlsplit seen0 url r) ∧
    ((k < length urls)%nat →
     EmailScraper.ALREADY_PROCESSED (EmailScraper.proc l) = seen0 ∧
     EmailScraper.requests (EmailScraper.proc l)
     = (EmailScraper.requests p0 ++ first_requests urlsplit seen0 (take k urls))%list) ∧
    (EmailScraper.requests p0 ++ first_requests urlsplit seen0 (take k urls))%list
      `prefix_of` EmailScraper.requests (EmailScraper.proc l).

(** a character that can stand in a match of the email pattern *)
Definition email_char (c : ascii) : bool :=
  EmailScraper.local_char c || Ascii.eqb c "@".

(** what a result of [process_website] for [url] looks like: nothing, or the
    homepage of [url] with, possibly, an email, and an email has an [@] *)
Definition site_result_ok (urlsplit : string → result Urllib.SplitResult) (url : string)
    (r : option (string * option string)) : Prop :=
  match r with
  | None => True
  | Some (homepage, email) =>
      EmailScraper.extract_homepage urlsplit url = Returns homepage ∧
      ∀ e, email = Some e → Str.contains "@" e = true
  end.

(** if a task that ends with [r] has returned, [Q] holds of the value *)
Definition if_returned {A : Type} (Q : A → Prop) (r : result A) : Prop :=
  match r with
  | Returns a => Q a
  | Raises _ => True
  end.

(** the rows that the writing loop of [scrape_emails] writes for one result *)
Definition row_of (r : option (string * option string)) : list (list string) :=
  match r with
  | Some (url, email) => if Str.truthy email then [[url; default "" email]] else []
  | None => []
  end.

(** the coroutine [c] adds nothing to the set but elements of [allowed] *)
Fixpoint adds_within {A : Type} (allowed : gset string) (c : coro A) : Prop :=
  match c with
  | Ret _ => True
  | IsProcessed _ k => ∀ seen, adds_within allowed (k seen)
  | AddProcessed h k => h ∈ allowed ∧ adds_within allowed k
  | Exchange _ k => ∀ response, adds_within allowed (k response)
  end.

(** An invariant of the event loop: the set stays within [allowed], and so
    do the additions that the queued and the waiting tasks can still make. *)
Definition confined {World A : Type} (allowed : gset string)
    (l : EmailScraper.loop World A) : Prop :=
  EmailScraper.ALREADY_PROCESSED (EmailScraper.proc l) ⊆ allowed ∧
  (∀ i c, (i, c) ∈ EmailScraper.ready l → adds_within allowed c) ∧
  (∀ i x, (i, x) ∈ EmailScraper.waiting l → ∀ o, adds_within allowed (x.2 o)).

(** [s] without its first [n] characters *)
Fixpoint drop_chars (n : nat) (s : string) : string :=
  match n, s with
  | S n', String _ s' => drop_chars n' s'
  | _, _ => s
  end.

(** section 4.3 of the specification, read to the letter: the prefix is
    stripped once, from a value that begins with it *)
Definition strip_prefix (prefix s : string) : string :=
  if Str.startswith prefix s then drop_chars (String.length prefix) s else s.

(** ** Proof steps used more than once *)

(** the href values of a concrete list contain no [mailto:] *)
Ltac all_passed_over :=
  repeat first
    [ apply List.Forall_nil
    | apply List.Forall_cons; [left; vm_compute; reflexivity|] ].

(** * Theorems *)

(** ** Strings *)

Section StringFacts.

Lemma app_cons c s t : String c s +:+ t = String c (s +:+ t).
Proof. reflexivity. Qed.

Lemma app_nil_l s : "" +:+ s = s.
Proof. reflexivity. Qed.

Lemma app_nil_r s : s +:+ "" = s.
Proof. induction s as [|c s IH]; [reflexivity|]. by rewrite app_cons, IH. Qed.

Lemma app_assoc s t u : (s +:+ t) +:+ u = s +:+ t +:+ u.
Proof.
  induction s as [|c s IH]; [reflexivity|]. by rewrite !app_cons, IH.
Qed.

Lemma length_app s t : String.length (s +:+ t) = String.length s + String.length t.
Proof.
  induction s as [|c s IH]; [reflexivity|]. rewrite app_cons. simpl. by rewrite IH.
Qed.

Lemma length_zero s : String.length s = 0 → s = "".
Proof. by destruct s. Qed.

Lemma startswith_spec p s : Str.startswith p s = true ↔ ∃ r, s = p +:+ r.
Proof.
  revert s. induction p as [|a p IH]; intros s; simpl.
  - split; [intros _; by exists s | done].
  - destruct s as [|b s].
    + split; [done | intros [r Hr]; by rewrite app_cons in Hr].
    + rewrite andb_true_iff, Ascii.eqb_eq, IH. split.
      * intros [-> [r ->]]. by exists r.
      * intros [r Hr]. rewrite app_cons in Hr. injection Hr as -> ->. eauto.
Qed.

Lemma startswith_app p r : Str.startswith p (p +:+ r) = true.
Proof. apply startswith_spec. by exists r. Qed.

Lemma contains_spec sub s :
  Str.contains sub s = true ↔ ∃ a b, s = a +:+ sub +:+ b.
Proof.
  induction s as [|c s IH]; simpl.
  - rewrite orb_false_r, startswith_spec. split.
    + intros [r Hr]. by exists "", r.
    + intros ([|] & b & Hab); [by exists b | by rewrite app_cons in Hab].
  - rewrite orb_true_iff, startswith_spec, IH. split.
    + intros [[r Hr] | (a & b & ->)]; [by exists "", r | by exists (String c a), b].
    + intros ([|c' a] & b & Hab).
      * left. by exists b.
      * right. rewrite app_cons in Hab. injection Hab as -> ->. by exists a, b.
Qed.

Lemma endswith_spec x s : Str.endswith x s = true ↔ ∃ a, s = a +:+ x.
Proof.
  induction s as [|c s IH]; cbn [Str.endswith].
  - rewrite orb_false_r, String.eqb_eq. split.
    + intros <-. by exists "".
    + intros ([|] & Ha); [done | by rewrite app_cons in Ha].
  - rewrite orb_true_iff, String.eqb_eq, IH. split.
    + intros [<- | [a ->]]; [by exists "" | by exists (String c a)].
    + intros ([|c' a] & Ha).
      * by left.
      * right. rewrite app_cons in Ha. injection Ha as -> ->. by exists a.
Qed.

End StringFacts.

Section StringSplits.

Lemma app_eq_split x r x' r' :
  x +:+ r = x' +:+ r' → (String.length x ≤ String.length x')%nat →
  ∃ z, x' = x +:+ z ∧ r = z +:+ r'.
Proof.
  revert x'. induction x as [|c x IH]; intros x' Heq Hlen.
  - exists x'. by rewrite !app_nil_l in *.
  - destruct x' as [|c' x']; [simpl in Hlen; lia|].
    rewrite !app_cons in Heq. injection Heq as -> Heq.
    destruct (IH x' Heq) as (z & -> & ->); [simpl in Hlen; lia|].
    by exists z.
Qed.

Lemma app_inv_length x r x' r' :
  x +:+ r = x' +:+ r' → String.length x = String.length x' → x = x' ∧ r = r'.
Proof.
  intros Heq Hlen. destruct (app_eq_split _ _ _ _ Heq) as (z & -> & ->); [lia|].
  rewrite length_app in Hlen. assert (z = "") as -> by (apply length_zero; lia).
  by rewrite app_nil_r.
Qed.

Lemma all_app cls x y :
  Str.all cls (x +:+ y) = Str.all cls x && Str.all cls y.
Proof.
  induction x as [|c x IH]; [reflexivity|].
  rewrite app_cons. simpl. by rewrite IH, andb_assoc.
Qed.

(** a run of characters of a class ends where the first character outside
    the class stands *)
Lemma run_unique cls x x' a r a' r' :
  Str.all cls x = true → Str.all cls x' = true →
  cls a = false → cls a' = false →
  x +:+ String a r = x' +:+ String a' r' →
  x = x' ∧ a = a' ∧ r = r'.
Proof.
  revert x'. induction x as [|c x IH]; intros [|c' x'] Hx Hx' Ha Ha' Heq;
    rewrite ?app_cons, ?app_nil_l in Heq; simpl in Hx, Hx'.
  - by injection Heq as -> ->.
  - injection Heq as -> _. apply andb_true_iff in Hx' as [Hc _]. congruence.
  - injection Heq as -> _. apply andb_true_iff in Hx as [Hc _]. congruence.
  - injection Heq as -> Heq.
    apply andb_true_iff in Hx as [_ Hx]. apply andb_true_iff in Hx' as [_ Hx'].
    destruct (IH x' Hx Hx' Ha Ha' Heq) as (-> & -> & ->). done.
Qed.

End StringSplits.

(** ** The matcher *)

Section MatcherFacts.

Import Re.

Lemma greedy_sound cls k s min g :
  greedy cls k s min = Some g →
  ∃ x g' rest,
    g = x :: g' ∧ s = x +:+ rest ∧ Str.all cls x = true ∧
    (min ≤ String.length x)%nat ∧ k rest = Some g'.
Proof.
  revert min g. induction s as [|c s IH]; intros min g.
  - simpl. destruct min; [|done]. destruct (k "") as [g0|] eqn:Hk; [|done].
    intros [= <-]. by exists "", g0, "".
  - cbn [greedy].
    assert (match min with
            | 0 => match k (String c s) with Some g0 => Some ("" :: g0) | None => None end
            | S _ => None
            end = Some g →
            ∃ x g' rest, g = x :: g' ∧ String c s = x +:+ rest ∧
              Str.all cls x = true ∧ (min ≤ String.length x)%nat ∧ k rest = Some g')
      as Hstop.
    { destruct min; [|done]. destruct (k (String c s)) as [g0|] eqn:Hk; [|done].
      intros [= <-]. by exists "", g0, (String c s). }
    destruct (cls c) eqn:Hc; [|done].
    destruct (greedy cls k s (Nat.pred min)) as [[|x g1]|] eqn:Hrec; [done| |done].
    intros [= <-]. destruct (IH _ _ Hrec) as (x0 & g' & rest & [= -> ->] & -> & Hall & Hmin & Hk).
    exists (String c x0), g', rest. rewrite app_cons. simpl. rewrite Hc, Hall.
    repeat split; [lia | done].
Qed.

Lemma greedy_max cls k x rest min g' :
  Str.all cls x = true → (min ≤ String.length x)%nat → k rest = Some g' →
  ∃ y h, greedy cls k (x +:+ rest) min = Some (y :: h) ∧
         (String.length x ≤ String.length y)%nat.
Proof.
  revert min. induction x as [|c x IH]; intros min Hall Hmin Hk.
  - simpl in Hmin. assert (min = 0) as -> by lia. rewrite app_nil_l.
    destruct rest as [|c rest]; simpl.
    + rewrite Hk. eexists _, _. split; [done | simpl; lia].
    + destruct (cls c).
      * destruct (greedy cls k rest 0) as [[|y h]|];
          rewrite ?Hk; eexists _, _; (split; [done | simpl; lia]).
      * rewrite Hk. eexists _, _. split; [done | simpl; lia].
  - simpl in Hall. apply andb_true_iff in Hall as [Hc Hall].
    rewrite app_cons. cbn [greedy]. rewrite Hc.
    destruct (IH (Nat.pred min) Hall) as (y & h & -> & Hlen); [simpl in Hmin; lia | done |].
    eexists _, _. split; [done | simpl; lia].
Qed.

Lemma match_here_sound p s g :
  match_here p s = Some g →
  Forall2 piece_ok p g ∧ ∃ rest, s = Str.join g +:+ rest.
Proof.
  revert s g. induction p as [|[cls|cls min] p IH]; intros s g.
  - intros [= <-]. split; [constructor | by exists s].
  - simpl. destruct s as [|c s]; [done|]. destruct (cls c) eqn:Hc; [|done].
    destruct (match_here p s) as [g0|] eqn:Hm; [|done]. intros [= <-].
    destruct (IH _ _ Hm) as [HF [rest ->]]. split.
    + constructor; [by exists c | done].
    + exists rest. simpl. by rewrite app_assoc.
  - simpl. intros Hg.
    destruct (greedy_sound _ _ _ _ _ Hg) as (x & g' & rest & -> & -> & Hall & Hmin & Hk).
    destruct (IH _ _ Hk) as [HF [rest' ->]]. split.
    + by constructor.
    + exists rest'. simpl. by rewrite app_assoc.
Qed.

Lemma match_here_complete p g rest :
  Forall2 piece_ok p g → is_Some (match_here p (Str.join g +:+ rest)).
Proof.
  induction 1 as [|a x p g Hx HF IH]; [by eexists|].
  simpl Str.join. rewrite app_assoc. destruct IH as [g0 Hg0].
  destruct a as [cls|cls min]; simpl in Hx.
  - destruct Hx as (c & -> & Hc). rewrite app_cons, app_nil_l. simpl.
    rewrite Hc, Hg0. by eexists.
  - destruct Hx as [Hall Hmin]. simpl.
    destruct (greedy_max cls (match_here p) x _ min g0 Hall Hmin Hg0) as (y & h & -> & _).
    by eexists.
Qed.

Lemma search_some p s g :
  search p s = Some g →
  ∃ before s',
    s = before +:+ s' ∧ match_here p s' = Some g ∧
    ∀ b1 s1, s = b1 +:+ s1 → (String.length b1 < String.length before)%nat →
             match_here p s1 = None.
Proof.
  induction s as [|c s IH]; cbn [search].
  - destruct (match_here p "") eqn:Hm; [|done]. intros [= <-].
    exists "", "". repeat split; [done|]. intros ?? _ Hlt. simpl in Hlt. lia.
  - destruct (match_here p (String c s)) eqn:Hm.
    + intros [= <-]. exists "", (String c s). repeat split; [done|].
      intros ?? _ Hlt. simpl in Hlt. lia.
    + intros Hs. destruct (IH Hs) as (before & s' & -> & Hs' & Hmin).
      exists (String c before), s'. repeat split; [done|].
      intros [|c1 b1] s1 Heq Hlt.
      * rewrite app_nil_l in Heq. by subst s1.
      * rewrite !app_cons in Heq. injection Heq as -> Heq.
        apply (Hmin b1); [done | simpl in Hlt; lia].
Qed.

Lemma search_none p s :
  search p s = None → ∀ b s', s = b +:+ s' → match_here p s' = None.
Proof.
  induction s as [|c s IH]; cbn [search].
  - destruct (match_here p "") eqn:Hm; [done|]. intros _ [|] s' Heq.
    + rewrite app_nil_l in Heq. by subst.
    + by rewrite app_cons in Heq.
  - destruct (match_here p (String c s)) eqn:Hm; [done|]. intros Hs [|c1 b1] s' Heq.
    + rewrite app_nil_l in Heq. by subst.
    + rewrite app_cons in Heq. injection Heq as -> Heq. by apply (IH Hs b1).
Qed.

End MatcherFacts.

(** ** [find_email] *)

Section FindEmail.

Import Re EmailScraper.

Lemma local_char_at : local_char "@" = false.
Proof. reflexivity. Qed.

Lemma alpha_dot : alpha "." = false.
Proof. reflexivity. Qed.

(** the pieces a match of the email pattern is made of *)
Lemma email_match_pieces s g :
  match_here email_pattern s = Some g →
  ∃ l d t rest,
    g = [l; "@"; d; "."; t] ∧ s = l +:+ "@" +:+ d +:+ "." +:+ t +:+ rest ∧
    Str.all local_char l = true ∧ l ≠ "" ∧
    Str.all domain_char d = true ∧ d ≠ "" ∧
    Str.all alpha t = true ∧ (2 ≤ String.length t)%nat ∧
    greedy domain_char (match_here [One (lit "."); Many alpha 2])
      (d +:+ "." +:+ t +:+ rest) 1 = Some [d; "."; t] ∧
    greedy alpha (match_here []) (t +:+ rest) 2 = Some [t].
Proof.
  unfold email_pattern. cbn [match_here]. intros H1.
  destruct (greedy_sound _ _ _ _ _ H1) as (l & g1 & r1 & -> & -> & Hl & Hl1 & H2).
  destruct r1 as [|c r2]; [done|]. destruct (lit "@" c) eqn:Hc; [|done].
  apply Ascii.eqb_eq in Hc as <-.
  destruct (greedy domain_char _ r2 1) as [g2|] eqn:H3; [|done].
  injection H2 as <-.
  destruct (greedy_sound _ _ _ _ _ H3) as (d & g3 & r3 & -> & -> & Hd & Hd1 & H4).
  cbn [match_here] in H4.
  destruct r3 as [|c r4]; [done|]. destruct (lit "." c) eqn:Hc; [|done].
  apply Ascii.eqb_eq in Hc as <-.
  destruct (greedy alpha _ r4 2) as [g4|] eqn:H5; [|done].
  injection H4 as <-.
  destruct (greedy_sound _ _ _ _ _ H5) as (t & g5 & r5 & -> & -> & Ht & Ht2 & H6).
  injection H6 as <-.
  exists l, d, t, r5. repeat split; try done.
  - intros ->. simpl in Hl1. lia.
  - intros ->. simpl in Hd1. lia.
Qed.

Lemma email_match_shape s g :
  match_here email_pattern s = Some g →
  email_shape (Str.join g) ∧ ∃ rest, s = Str.join g +:+ rest.
Proof.
  intros Hm.
  destruct (email_match_pieces _ _ Hm)
    as (l & d & t & rest & -> & -> & Hl & Hl1 & Hd & Hd1 & Ht & Ht2 & _).
  assert (Str.join [l; "@"; d; "."; t] = l +:+ "@" +:+ d +:+ "." +:+ t) as ->.
  { simpl. by rewrite app_nil_r. }
  split.
  - by exists l, d, t.
  - exists rest. by rewrite !app_assoc.
Qed.

Lemma email_shape_matches m after :
  email_shape m → is_Some (match_here email_pattern (m +:+ after)).
Proof.
  intros (l & d & t & -> & Hl1 & Hl & Hd1 & Hd & Ht2 & Ht).
  assert (l +:+ "@" +:+ d +:+ "." +:+ t = Str.join [l; "@"; d; "."; t]) as ->.
  { simpl. by rewrite app_nil_r. }
  apply match_here_complete. repeat constructor; simpl; try done.
  - destruct l; [done | simpl; lia].
  - by exists "@"%char.
  - destruct d; [done | simpl; lia].
  - by exists "."%char.
Qed.

(** the match the matcher returns is the longest one at its position *)
Lemma email_match_longest s g m' after' :
  match_here email_pattern s = Some g →
  s = m' +:+ after' → email_shape m' →
  (String.length m' ≤ String.length (Str.join g))%nat.
Proof.
  intros Hm Hs (l' & d' & t' & -> & Hl1' & Hl' & Hd1' & Hd' & Ht2' & Ht').
  destruct (email_match_pieces _ _ Hm)
    as (l & d & t & rest & -> & -> & Hl & Hl1 & Hd & Hd1 & Ht & Ht2 & HgD & HgA).
  rewrite !app_assoc in Hs.
  destruct (run_unique local_char l l' "@" _ "@" _ Hl Hl' local_char_at local_char_at Hs)
    as (<- & _ & Hs2).
  (* the domain run of the matcher is at least as long *)
  destruct (greedy_max alpha (match_here []) t' after' 2 [] Ht' Ht2' eq_refl)
    as (yt & ht & Hyt & Hlen_t).
  assert (match_here [One (lit "."); Many alpha 2] ("." +:+ t' +:+ after')
          = Some ("." :: yt :: ht)) as Hk.
  { rewrite app_cons, app_nil_l. cbn [match_here]. simpl (lit _ _).
    cbn [match_here] in Hyt. by rewrite Hyt. }
  destruct (greedy_max domain_char _ d' _ 1 _ Hd' ltac:(destruct d'; [done | simpl; lia]) Hk)
    as (yd & hd & Hyd & Hlen_d).
  rewrite <- Hs2, HgD in Hyd. injection Hyd as <- _.
  assert (Str.join [l; "@"; d; "."; t] = l +:+ "@" +:+ d +:+ "." +:+ t) as ->.
  { simpl. by rewrite app_nil_r. }
  rewrite !length_app. simpl.
  destruct (app_eq_split _ _ _ _ (eq_sym Hs2) Hlen_d) as (z & -> & Hz).
  destruct z as [|c z].
  - rewrite app_nil_l in Hz. rewrite !app_cons, !app_nil_l in Hz.
    injection Hz as Hz. rewrite app_nil_r.
    rewrite Hz, HgA in Hyt. injection Hyt as <- _. lia.
  - rewrite !app_cons, !app_nil_l in Hz. injection Hz as <- Hz.
    rewrite length_app. simpl.
    assert (String.length t' ≤ String.length z)%nat; [|lia].
    destruct (Nat.le_gt_cases (String.length t') (String.length z)) as [|Hlt]; [done|].
    destruct (app_eq_split _ _ _ _ (eq_sym Hz)) as (w & -> & Hw); [lia|].
    rewrite length_app in Hlt. destruct w as [|c w]; [simpl in Hlt; lia|].
    rewrite !app_cons in Hw. injection Hw as <- _.
    rewrite all_app in Ht'. simpl in Ht'. by rewrite andb_false_r in Ht'.
Qed.

End FindEmail.

Section FindEmailSpec.

Import Re EmailScraper.

Lemma image_suffixed_spec m :
  image_suffixed m = true ↔
  ∃ stem extension, In extension image_extensions ∧ m = stem +:+ extension.
Proof.
  unfold image_suffixed. rewrite existsb_exists. split.
  - intros (ext & Hin & Hend). apply endswith_spec in Hend as [stem ->]. eauto.
  - intros (stem & ext & Hin & ->). exists ext. split; [done|].
    apply endswith_spec. eauto.
Qed.

Lemma email_shape_nonempty m : email_shape m → m ≠ "".
Proof.
  intros (l & d & t & -> & Hl & _). destruct l; [done|]. by rewrite app_cons.
Qed.

(** [find_email] in terms of the search *)
Lemma find_email_search content :
  find_email content =
  match search email_pattern content with
  | Some g => if image_suffixed (Str.join g) then None else Some (Str.join g)
  | None => None
  end.
Proof.
  unfold find_email. destruct content as [|c content]; [reflexivity|].
  destruct (search email_pattern (String c content)) as [g|] eqn:Hs; [|done].
  destruct (search_some _ _ _ Hs) as (before & s' & _ & Hm & _).
  destruct (email_match_shape _ _ Hm) as [Hshape _].
  apply email_shape_nonempty in Hshape.
  destruct (Str.join g); [done|]. reflexivity.
Qed.

(** what the search finds is the first match *)
Lemma search_first_email content g :
  search email_pattern content = Some g → first_email content (Str.join g).
Proof.
  intros Hs. destruct (search_some _ _ _ Hs) as (before & s' & -> & Hm & Hmin).
  destruct (email_match_shape _ _ Hm) as [Hshape [after Hafter]].
  exists before, after. subst s'. repeat split; [done| |].
  - intros before' m' after' Heq Hshape'.
    destruct (Nat.le_gt_cases (String.length before) (String.length before')) as [|Hlt];
      [done|].
    specialize (Hmin _ _ Heq Hlt).
    destruct (email_shape_matches m' after' Hshape') as [g' Hg']. congruence.
  - intros m' after' Heq Hshape'. by eapply email_match_longest.
Qed.

Lemma search_none_no_email content :
  search email_pattern content = None →
  ∀ before m after, content = before +:+ m +:+ after → ¬ email_shape m.
Proof.
  intros Hs before m after Heq Hshape.
  pose proof (search_none _ _ Hs _ _ Heq) as Hnone.
  destruct (email_shape_matches m after Hshape) as [g Hg]. congruence.
Qed.

Lemma first_email_unique content m1 m2 :
  first_email content m1 → first_email content m2 → m1 = m2.
Proof.
  intros (b1 & a1 & E1 & S1 & L1 & G1) (b2 & a2 & E2 & S2 & L2 & G2).
  pose proof (L1 _ _ _ E2 S2). pose proof (L2 _ _ _ E1 S1).
  assert (b1 = b2 ∧ m1 +:+ a1 = m2 +:+ a2) as [<- Heq].
  { apply app_inv_length; [congruence | lia]. }
  pose proof (G1 _ _ Heq S2). pose proof (G2 _ _ (eq_sym Heq) S1).
  apply (app_inv_length _ _ _ _ Heq). lia.
Qed.

Lemma first_email_search content m :
  first_email content m →
  ∃ g, search email_pattern content = Some g ∧ Str.join g = m.
Proof.
  intros Hfirst. destruct (search email_pattern content) as [g|] eqn:Hs.
  - exists g. split; [done|].
    by apply (first_email_unique content); [apply search_first_email|].
  - destruct Hfirst as (b & a & E & S & _).
    by destruct (search_none_no_email _ Hs _ _ _ E).
Qed.

End FindEmailSpec.

(** C4 (amended).  For every text, [find_email] returns the first match of
    the pattern local-part [@] domain [.] letters (the leftmost one, and the
    longest one that starts there) unless that match ends with an image
    extension, in which case it returns nothing; it returns nothing when the
    text has no match. *)
Theorem C4_find_email_first_match (content : string) :
  match EmailScraper.find_email content with
  | Some m => first_email content m ∧ image_suffixed m = false
  | None =>
      (∀ before m after, content = before +:+ m +:+ after → ¬ email_shape m) ∨
      (∃ m, first_email content m ∧ image_suffixed m = true)
  end ∧
  (∀ m, first_email content m →
        EmailScraper.find_email content = if image_suffixed m then None else Some m).
Proof.
  rewrite find_email_search. split.
  - destruct (Re.search EmailScraper.email_pattern content) as [g|] eqn:Hs.
    + pose proof (search_first_email _ _ Hs) as Hfirst.
      destruct (image_suffixed (Str.join g)) eqn:Himg; [right; eauto | done].
    + left. by apply search_none_no_email.
  - intros m Hfirst. by destruct (first_email_search _ _ Hfirst) as (g & -> & ->).
Qed.

Lemma C4_find_email_first_match_witness :
  let content := "write to john.doe@example.co.uk, or to x@y.org" in
  first_email content "john.doe@example.co.uk" ∧
  EmailScraper.find_email content = Some "john.doe@example.co.uk".
Proof.
  intros content.
  assert (first_email content "john.doe@example.co.uk") as Hfirst.
  { apply (search_first_email content ["john.doe"; "@"; "example.co"; "."; "uk"]).
    vm_compute. reflexivity. }
  split; [exact Hfirst|].
  exact (proj2 (C4_find_email_first_match content) _ Hfirst).
Defined.

(** The claim C4 as it was stated fails on a text whose first match is a
    file name: the match exists and nothing is returned. *)
Lemma C4_counterexample :
  first_email "logo@2x.png" "logo@2x.png" ∧
  EmailScraper.find_email "logo@2x.png" = None.
Proof.
  split; [|vm_compute; reflexivity].
  apply (search_first_email "logo@2x.png" ["logo"; "@"; "2x"; "."; "png"]).
  vm_compute. reflexivity.
Qed.

(** C5.  When the first match of the pattern ends with one of [png], [jpg],
    [jpeg], [gif], [svg], [bmp], [webp] (compared as a suffix, letter case
    included), [find_email] returns nothing; so it does on the text
    [contact us at logo@2x.png for more]. *)
Theorem C5_image_suffix_suppressed :
  (∀ content g stem extension,
      Re.search EmailScraper.email_pattern content = Some g →
      In extension ["png"; "jpg"; "jpeg"; "gif"; "svg"; "bmp"; "webp"] →
      Str.join g = stem +:+ extension →
      EmailScraper.find_email content = None) ∧
  (∀ content m stem extension,
      first_email content m →
      In extension ["png"; "jpg"; "jpeg"; "gif"; "svg"; "bmp"; "webp"] →
      m = stem +:+ extension →
      EmailScraper.find_email content = None) ∧
  Re.search EmailScraper.email_pattern "contact us at logo@2x.png for more"
    = Some ["logo"; "@"; "2x"; "."; "png"] ∧
  EmailScraper.find_email "contact us at logo@2x.png for more" = None ∧
  EmailScraper.find_email "contact us at logo@2x.PNG for more" = Some "logo@2x.PNG".
Proof.
  assert (∀ content g stem extension,
      Re.search EmailScraper.email_pattern content = Some g →
      In extension ["png"; "jpg"; "jpeg"; "gif"; "svg"; "bmp"; "webp"] →
      Str.join g = stem +:+ extension →
      EmailScraper.find_email content = None) as Hgen.
  { intros content g stem ext Hs Hin Hjoin. rewrite find_email_search, Hs.
    assert (image_suffixed (Str.join g) = true) as ->; [|done].
    apply image_suffixed_spec. exists stem, ext. split; [exact Hin | done]. }
  split; [exact Hgen|]. split.
  - intros content m stem ext Hfirst Hin ->.
    destruct (first_email_search _ _ Hfirst) as (g & Hs & Hjoin). eauto.
  - repeat split; vm_compute; reflexivity.
Qed.

Lemma C5_image_suffix_suppressed_witness :
  Re.search EmailScraper.email_pattern "see img@3x.webp"
    = Some ["img"; "@"; "3x"; "."; "webp"] ∧
  In "webp" ["png"; "jpg"; "jpeg"; "gif"; "svg"; "bmp"; "webp"] ∧
  EmailScraper.find_email "see img@3x.webp" = None.
Proof.
  assert (Re.search EmailScraper.email_pattern "see img@3x.webp"
          = Some ["img"; "@"; "3x"; "."; "webp"]) as Hs by (vm_compute; reflexivity).
  assert (In "webp" ["png"; "jpg"; "jpeg"; "gif"; "svg"; "bmp"; "webp"]) as Hin
    by (simpl; tauto).
  split; [exact Hs|]. split; [exact Hin|].
  exact (proj1 C5_image_suffix_suppressed "see img@3x.webp" _ "img@3x." "webp" Hs Hin eq_refl).
Defined.

(** ** [find_contact_urls] *)

Section FindContactUrls.

Import EmailScraper.

Variable urljoin : string → string → result string.

Lemma truthy_nonempty s : Str.truthy (Some s) = true ↔ s ≠ "".
Proof. by destruct s. Qed.

Lemma collect_returns {A} (calls : list (result A)) values :
  collect calls = Returns values ↔ Forall2 (λ call a, call = Returns a) calls values.
Proof.
  revert values. induction calls as [|call calls IH]; intros values; simpl.
  - split; [intros [= <-]; constructor | by intros ->%Forall2_nil_inv_l].
  - destruct call as [a|e].
    + destruct (collect calls) as [l|e] eqn:Hl.
      * split.
        -- intros [= <-]. constructor; [done | by apply IH].
        -- intros (a' & l' & [= <-] & HF & ->)%Forall2_cons_inv_l.
           apply IH in HF. by injection HF as ->.
      * split; [done|].
        intros (a' & l' & _ & HF & ->)%Forall2_cons_inv_l. by apply IH in HF.
    + split; [done|]. by intros (a' & l' & [=] & _)%Forall2_cons_inv_l.
Qed.

Lemma collect_raises {A} (calls : list (result A)) call e :
  call ∈ calls → call = Raises e → ∃ e', collect calls = Raises e'.
Proof.
  intros Hin ->. induction calls as [|call calls IH]; [by apply elem_of_nil in Hin|].
  apply elem_of_cons in Hin as [<-|Hin]; simpl; [by eexists|].
  destruct call as [a|e0]; [|by eexists].
  destruct (IH Hin) as [e' ->]. by eexists.
Qed.

Lemma scan_hrefs_passed base acc urls :
  Forall passed_over urls →
  scan_hrefs urljoin base acc urls
  = match resolved_links urljoin base urls with
    | Returns links => Returns (acc ++ links)%list
    | Raises e => Raises e
    end.
Proof.
  intros HF. revert acc. unfold resolved_links.
  induction HF as [|url urls Hurl _ IH]; intros acc.
  - simpl. by rewrite List.app_nil_r.
  - cbn [scan_hrefs List.filter]. unfold collected at 1.
    fold (mailto_address url). fold (has_contact_word url).
    destruct (Str.contains "mailto:" url) eqn:Hm.
    + destruct Hurl as [|Hempty]; [congruence|]. rewrite Hempty. simpl. apply IH.
    + simpl negb. rewrite andb_true_l.
      destruct (has_contact_word url) eqn:Hw; [|apply IH].
      cbn [map collect]. unfold resolve_link at 1.
      destruct (Str.contains "http" url); cbn [negb].
      * cbn [mbind result_mbind result_bind mret result_mret]. rewrite IH. destruct (collect _); [|done]. by rewrite <- List.app_assoc.
      * destruct (urljoin base url) as [link|e]; [|done].
        cbn [mbind result_mbind result_bind]. rewrite IH. destruct (collect _); [|done]. by rewrite <- List.app_assoc.
Qed.

Lemma scan_hrefs_mailto base acc pre url post :
  Forall passed_over pre →
  Str.contains "mailto:" url = true →
  mailto_address url ≠ "" →
  scan_hrefs urljoin base acc (pre ++ url :: post)%list
  = match resolved_links urljoin base pre with
    | Returns _ => Returns [mailto_address url]
    | Raises e => Raises e
    end.
Proof.
  intros HF Hm Hne. revert acc. unfold resolved_links.
  induction HF as [|u pre Hu _ IH]; intros acc.
  - cbn [scan_hrefs app]. rewrite Hm. fold (mailto_address url).
    apply truthy_nonempty in Hne. by rewrite Hne.
  - cbn [scan_hrefs app List.filter]. unfold collected at 1.
    fold (mailto_address u). fold (has_contact_word u).
    destruct (Str.contains "mailto:" u) eqn:Hmu.
    + destruct Hu as [|Hempty]; [congruence|]. rewrite Hempty. simpl. apply IH.
    + simpl negb. rewrite andb_true_l.
      destruct (has_contact_word u) eqn:Hw; [|apply IH].
      cbn [map collect]. unfold resolve_link at 1.
      destruct (Str.contains "http" u); cbn [negb].
      * cbn [mbind result_mbind result_bind mret result_mret]. rewrite IH. by destruct (collect _).
      * destruct (urljoin base u) as [link|e]; [|done].
        cbn [mbind result_mbind result_bind]. rewrite IH. by destruct (collect _).
Qed.

End FindContactUrls.

Section ReplaceFacts.

Lemma replace_from_skip old new x b :
  Str.replace_from old new (String.length x) (x +:+ b) = Str.replace_from old new 0 b.
Proof.
  induction x as [|c x IH]; [by destruct b|]. by rewrite app_cons.
Qed.

Lemma replace_hit c old new b :
  Str.replace (String c old) new (String c old +:+ b)
  = new +:+ Str.replace (String c old) new b.
Proof.
  unfold Str.replace.
  pose proof (startswith_app (String c old) b) as Hs.
  rewrite app_cons in *. cbn [Str.replace_from]. rewrite Hs.
  cbn [String.length]. replace (S (String.length old) - 1)%nat with (String.length old) by lia. by rewrite replace_from_skip.
Qed.

Lemma replace_miss old new c s :
  Str.startswith old (String c s) = false →
  Str.replace old new (String c s) = String c (Str.replace old new s).
Proof. unfold Str.replace. cbn [Str.replace_from]. by intros ->. Qed.

Lemma replace_absent old new s :
  Str.contains old s = false → Str.replace old new s = s.
Proof.
  induction s as [|c s IH]; [done|]. cbn [Str.contains].
  intros [Hs Hc]%orb_false_iff. rewrite replace_miss by done. by rewrite IH.
Qed.



End ReplaceFacts.

Section SplitHeadFacts.

Lemma split_head_absent sep s :
  Str.contains (String sep "") s = false → Str.split_head sep s = s.
Proof.
  induction s as [|c s IH]; [done|]. cbn [Str.contains Str.split_head Str.startswith].
  rewrite andb_true_r. intros [Hc Hs]%orb_false_iff.
  rewrite Ascii.eqb_sym, Hc. by rewrite IH.
Qed.

Lemma split_head_cut sep address query :
  Str.contains (String sep "") address = false →
  Str.split_head sep (address +:+ String sep query) = address.
Proof.
  induction address as [|c s IH].
  - intros _. rewrite app_nil_l. simpl. by rewrite Ascii.eqb_refl.
  - cbn [Str.contains Str.startswith]. rewrite andb_true_r.
    intros [Hc Hs]%orb_false_iff. rewrite app_cons. cbn [Str.split_head].
    rewrite Ascii.eqb_sym, Hc. by rewrite IH.
Qed.

End SplitHeadFacts.

(** C6 (amended).  When the first href value that makes [find_contact_urls]
    return begins with [mailto:] and contains [mailto:] nowhere else, and
    [urljoin] has raised on none of the links collected before it, the
    function strips the prefix and the query (everything from the first [?])
    and, the remainder being non-empty, returns it at once as the only
    result: the links collected before it are dropped and the rest of the
    document is not looked at.  When [urljoin] raises on a link collected
    before it, the function raises and the value is never reached. *)
Theorem C6_mailto_short_circuit :
  (∀ urljoin base content pre url post rest,
      EmailScraper.hrefs content = (pre ++ url :: post)%list →
      Forall passed_over pre →
      url = "mailto:" +:+ rest →
      Str.contains "mailto:" rest = false →
      Str.split_head "?" rest ≠ "" →
      EmailScraper.find_contact_urls urljoin base content
      = match resolved_links urljoin base pre with
        | Returns _ => Returns [Str.split_head "?" rest]
        | Raises e => Raises e
        end) ∧
  (∀ address query,
      Str.contains "?" address = false →
      Str.split_head "?" (address +:+ "?" +:+ query) = address) ∧
  (∀ address,
      Str.contains "?" address = false → Str.split_head "?" address = address).
Proof.
  split; [|split].
  - intros urljoin base content pre url post rest Hhrefs Hpre -> Hrest Hne.
    unfold EmailScraper.find_contact_urls. rewrite Hhrefs.
    assert (mailto_address ("mailto:" +:+ rest) = Str.split_head "?" rest) as Haddr.
    { unfold mailto_address. by rewrite replace_hit, app_nil_l, replace_absent. }
    rewrite <- Haddr. apply scan_hrefs_mailto; [done | | by rewrite Haddr].
    apply contains_spec. by exists "", rest.
  - intros address query Hc. by apply split_head_cut.
  - intros address Hc. by apply split_head_absent.
Qed.

Lemma C6_mailto_short_circuit_witness :
  let content :=
    "<p>" +:+ anchor "/about" +:+ anchor "mailto:info@x.com?subject=hi"
    +:+ anchor "/contact" in
  EmailScraper.hrefs content = ["/about"; "mailto:info@x.com?subject=hi"; "/contact"] ∧
  EmailScraper.find_contact_urls Urllib.urljoin "https://x.com" content
  = Returns ["info@x.com"].
Proof.
  intros content.
  assert (EmailScraper.hrefs content
          = (["/about"] ++ "mailto:info@x.com?subject=hi" :: ["/contact"])%list) as Hhrefs
    by (vm_compute; reflexivity).
  split; [exact Hhrefs|].
  rewrite (proj1 C6_mailto_short_circuit Urllib.urljoin "https://x.com" content
             ["/about"] _ ["/contact"] "info@x.com?subject=hi" Hhrefs).
  - vm_compute. reflexivity.
  - all_passed_over.
  - reflexivity.
  - vm_compute. reflexivity.
  - vm_compute. discriminate.
Defined.

(** The claim C6 as it was stated fails: a value that begins with [mailto:]
    loses every occurrence of [mailto:], not the prefix alone; a value that
    merely contains [mailto:] returns before a later value that begins with
    it is reached; and a link before it that [urljoin] rejects makes the
    function raise. *)
Lemma C6_counterexample :
  (let url := "mailto:mailto:a@b.co" in
   EmailScraper.hrefs (anchor url) = [url] ∧
   Str.startswith "mailto:" url = true ∧
   Str.split_head "?" (strip_prefix "mailto:" url) = "mailto:a@b.co" ∧
   EmailScraper.find_contact_urls Urllib.urljoin "https://x.com" (anchor url)
     = Returns ["a@b.co"]) ∧
  (let content := anchor "/go?to=mailto:x@y.zz" +:+ anchor "mailto:a@b.co" in
   EmailScraper.hrefs content = ["/go?to=mailto:x@y.zz"; "mailto:a@b.co"] ∧
   Str.startswith "mailto:" "/go?to=mailto:x@y.zz" = false ∧
   Str.split_head "?" (strip_prefix "mailto:" "mailto:a@b.co") = "a@b.co" ∧
   EmailScraper.find_contact_urls Urllib.urljoin "https://x.com" content
     = Returns ["/go"]) ∧
  (let content := anchor "//[contact" +:+ anchor "mailto:a@b.co" in
   EmailScraper.hrefs content = ["//[contact"; "mailto:a@b.co"] ∧
   Urllib.urljoin "https://x.com" "//[contact" = Raises ValueError ∧
   EmailScraper.find_contact_urls Urllib.urljoin "https://x.com" content
     = Raises ValueError).
Proof. repeat split; vm_compute; reflexivity. Qed.



(** C7 (amended).  On an input where no href value makes [find_contact_urls]
    return a mailto address, the href values that contain one of [contact],
    [about], [terms] (letter case included) and do not contain [mailto:] are
    taken in document order; each is resolved against the base URL with
    [urljoin] exactly when it does not contain [http] and is kept as it is
    otherwise.  When every call of [urljoin] returns, the result lists the
    links so made; when one raises, [find_contact_urls] raises.  So
    [/contact-us] on the base [https://x.com] gives
    [https://x.com/contact-us], and [https://other.com/about] is returned
    unchanged. *)
Theorem C7_contact_links :
  (∀ urljoin base content,
      Forall passed_over (EmailScraper.hrefs content) →
      EmailScraper.find_contact_urls urljoin base content
      = resolved_links urljoin base (EmailScraper.hrefs content)) ∧
  (∀ urljoin base content links,
      Forall passed_over (EmailScraper.hrefs content) →
      Forall2 (λ url link, resolve_link urljoin base url = Returns link)
        (List.filter collected (EmailScraper.hrefs content)) links →
      EmailScraper.find_contact_urls urljoin base content = Returns links) ∧
  (∀ urljoin base content url e,
      Forall passed_over (EmailScraper.hrefs content) →
      url ∈ List.filter collected (EmailScraper.hrefs content) →
      resolve_link urljoin base url = Raises e →
      ∃ e', EmailScraper.find_contact_urls urljoin base content = Raises e') ∧
  (∀ url,
      collected url = true ↔
      Str.contains "mailto:" url = false ∧
      ∃ word a b, In word ["contact"; "about"; "terms"] ∧ url = a +:+ word +:+ b) ∧
  (∀ urljoin base url,
      (Str.contains "http" url = false → resolve_link urljoin base url = urljoin base url) ∧
      (Str.contains "http" url = true → resolve_link urljoin base url = Returns url)) ∧
  (∀ urljoin link,
      urljoin "https://x.com" "/contact-us" = Returns link →
      EmailScraper.find_contact_urls urljoin "https://x.com" (anchor "/contact-us")
      = Returns [link]) ∧
  EmailScraper.find_contact_urls Urllib.urljoin "https://x.com" (anchor "/contact-us")
    = Returns ["https://x.com/contact-us"] ∧
  (∀ urljoin base,
      EmailScraper.find_contact_urls urljoin base (anchor "https://other.com/about")
      = Returns ["https://other.com/about"]) ∧
  (∀ urljoin base,
      EmailScraper.find_contact_urls urljoin base (anchor "/Contact" +:+ anchor "/blog")
      = Returns []).
Proof.
  assert (∀ urljoin base content,
      Forall passed_over (EmailScraper.hrefs content) →
      EmailScraper.find_contact_urls urljoin base content
      = resolved_links urljoin base (EmailScraper.hrefs content)) as Hgen.
  { intros urljoin base content Hpass. unfold EmailScraper.find_contact_urls.
    rewrite scan_hrefs_passed by done. by destruct (resolved_links _ _ _). }
  split; [exact Hgen|]. split; [|split; [|split; [|split; [|split; [|split; [|split]]]]]].
  - intros urljoin base content links Hpass HF. rewrite Hgen by done.
    unfold resolved_links. apply collect_returns. by apply Forall2_fmap_l.
  - intros urljoin base content url e Hpass Hin He. rewrite Hgen by done.
    unfold resolved_links. eapply collect_raises; [|exact He].
    apply list_elem_of_fmap. by exists url.
  - intros url. unfold collected, has_contact_word.
    rewrite andb_true_iff, negb_true_iff, existsb_exists.
    split; intros [Hm Hw]; (split; [done|]).
    + destruct Hw as (word & Hin & (a & b & ->)%contains_spec). eauto.
    + destruct Hw as (word & a & b & Hin & ->). exists word. split; [done|].
      apply contains_spec. eauto.
  - intros urljoin base url. unfold resolve_link. split; by intros ->.
  - intros urljoin link Hlink.
    change (EmailScraper.find_contact_urls urljoin "https://x.com" (anchor "/contact-us"))
      with (urljoin "https://x.com" "/contact-us" ≫= λ link, Returns [link]).
    by rewrite Hlink.
  - vm_compute. reflexivity.
  - intros urljoin base. vm_compute. reflexivity.
  - intros urljoin base. vm_compute. reflexivity.
Qed.

Lemma C7_contact_links_witness :
  let content :=
    anchor "/contact-us" +:+ anchor "/blog" +:+ anchor "https://other.com/about"
    +:+ anchor "terms.html" in
  EmailScraper.find_contact_urls Urllib.urljoin "https://x.com" content
  = Returns
      ["https://x.com/contact-us"; "https://other.com/about"; "https://x.com/terms.html"].
Proof.
  intros content.
  assert (EmailScraper.hrefs content
          = ["/contact-us"; "/blog"; "https://other.com/about"; "terms.html"]) as Hhrefs
    by (vm_compute; reflexivity).
  apply (proj1 (proj2 C7_contact_links) Urllib.urljoin "https://x.com" content).
  - rewrite Hhrefs. all_passed_over.
  - rewrite Hhrefs. vm_compute.
    repeat (apply List.Forall2_cons; [reflexivity|]). apply List.Forall2_nil.
Defined.

(** The claim C7 as it was stated fails: an href value that contains
    [contact] is not collected as a link when it contains [mailto:], the
    links collected before a mailto address are dropped, and a value that
    [urljoin] rejects makes the function raise. *)
Lemma C7_counterexample :
  (let url := "mailto:contact@x.com" in
   EmailScraper.hrefs (anchor url) = [url] ∧
   has_contact_word url = true ∧
   Urllib.urljoin "https://x.com" url = Returns url ∧
   EmailScraper.find_contact_urls Urllib.urljoin "https://x.com" (anchor url)
     = Returns ["contact@x.com"]) ∧
  (let content := anchor "/contact" +:+ anchor "mailto:a@b.co" in
   EmailScraper.hrefs content = ["/contact"; "mailto:a@b.co"] ∧
   has_contact_word "/contact" = true ∧
   EmailScraper.find_contact_urls Urllib.urljoin "https://x.com" content
     = Returns ["a@b.co"]) ∧
  (let url := "//[contact" in
   EmailScraper.hrefs (anchor url) = [url] ∧
   has_contact_word url = true ∧
   Str.contains "http" url = false ∧
   EmailScraper.find_contact_urls Urllib.urljoin "https://x.com" (anchor url)
     = Raises ValueError).
Proof. repeat split; vm_compute; reflexivity. Qed.

(** ** Coroutines awaited on their own *)

Section Awaiting.

Import EmailScraper.

Variable urlsplit : string → result Urllib.SplitResult.
Variable urljoin : string → string → result string.
Variable World : Type.
Variable session_get : string → World → outcome * World.

Local Abbreviation run := (await World session_get).
Local Abbreviation follow := (follow_contacts).
Local Abbreviation visit := (process_website urlsplit urljoin).

Lemma await_bind {A B} (f : A → coro B) (c : coro A) p :
  run (coro_bind f c) p = let '(a, p') := run c p in run (f a) p'.
Proof.
  revert p. induction c as [a|h k IH|h k IH|url k IH]; intros p; simpl.
  - done.
  - apply IH.
  - apply IH.
  - destruct (session_get url (network p)) as [o w]. apply IH.
Qed.

Lemma await_fetch url p :
  run (fetch url) p
  = (fetched_text (session_get url (network p)).1,
     mkProcess (ALREADY_PROCESSED p) (session_get url (network p)).2
       (requests p ++ [url])%list).
Proof.
  unfold fetch. simpl.
  destruct (session_get url (network p)) as [[status [text|e]|e] w]; simpl.
  - by destruct (status =? 200)%Z.
  - by destruct (status =? 200)%Z.
  - done.
Qed.

Lemma find_email_truthy content e :
  find_email content = Some e → Str.truthy (Some e) = true.
Proof.
  unfold find_email. destruct content; [done|].
  destruct (Re.search _ _); [|done]. destruct (Str.join l); [done|].
  destruct (existsb _ _); [done|]. by intros [= <-].
Qed.

Lemma follow_cons email c rest p :
  run (follow email (c :: rest)) p =
  if Str.contains "@" c then (Some c, p)
  else
    let '(content, p1) := run (fetch c) p in
    if negb (Str.truthy content) then run (follow email rest) p1
    else if Str.truthy (find_email (default "" content))
         then (find_email (default "" content), p1)
         else run (follow (find_email (default "" content)) rest) p1.
Proof.
  cbn [follow_contacts]. destruct (Str.contains "@" c); [done|].
  unfold mbind, coro_mbind. rewrite await_bind.
  destruct (run (fetch c) p) as [content p1].
  destruct (negb (Str.truthy content)); [done|].
  by destruct (Str.truthy (find_email (default "" content))).
Qed.

Lemma find_email_falsy content :
  Str.truthy (find_email content) = false → find_email content = None.
Proof.
  destruct (find_email content) as [e|] eqn:He; [|done].
  by rewrite (find_email_truthy _ _ He).
Qed.

Lemma follow_requests cs p :
  ∃ tried,
    tried `prefix_of` cs ∧
    requests (run (follow None cs) p).2 = (requests p ++ tried)%list ∧
    ALREADY_PROCESSED (run (follow None cs) p).2 = ALREADY_PROCESSED p ∧
    ((run (follow None cs) p).1 = None → tried = cs).
Proof.
  revert p. induction cs as [|c cs IH]; intros p.
  - exists []. simpl. by rewrite List.app_nil_r.
  - rewrite follow_cons. destruct (Str.contains "@" c).
    { exists []. simpl. rewrite List.app_nil_r. repeat split; [apply prefix_nil | done]. }
    rewrite await_fetch.
    set (p1 := mkProcess _ _ _).
    assert (∃ tried, tried `prefix_of` c :: cs ∧
              requests (run (follow None cs) p1).2 = (requests p ++ tried)%list ∧
              ALREADY_PROCESSED (run (follow None cs) p1).2 = ALREADY_PROCESSED p ∧
              ((run (follow None cs) p1).1 = None → tried = c :: cs)) as Hnext.
    { destruct (IH p1) as (tried & Hpre & Hreq & Hap & Hnone).
      exists (c :: tried). repeat split.
      - by apply prefix_cons.
      - rewrite Hreq. simpl. by rewrite <- List.app_assoc.
      - done.
      - intros H. by rewrite Hnone. }
    destruct (negb (Str.truthy _)); [done|].
    destruct (Str.truthy (find_email _)) eqn:Ht.
    + exists [c]. simpl. repeat split; [by apply prefix_cons, prefix_nil|].
      intros Hnone. by rewrite Hnone in Ht.
    + by rewrite (find_email_falsy _ Ht).
Qed.

(** a URL that [urlsplit] rejects: the call raises at once *)
Lemma await_visit_rejected url e p :
  extract_homepage urlsplit url = Raises e → run (visit url) p = (Raises e, p).
Proof. intros Hhome. unfold process_website. by rewrite Hhome. Qed.

(** the state of the process once the homepage has been fetched and added
    to the set *)
Lemma await_visit url homepage p :
  extract_homepage urlsplit url = Returns homepage →
  homepage ∉ ALREADY_PROCESSED p →
  let content := (run (fetch homepage) p).1 in
  let p1 := (run (fetch homepage) p).2 in
  let p2 := mkProcess ({[homepage]} ∪ ALREADY_PROCESSED p1) (network p1) (requests p1) in
  run (visit url) p =
  if negb (Str.truthy content) then (Returns (Some (homepage, None)), p2)
  else
    let email := find_email (default "" content) in
    if negb (Str.truthy email) then
      match find_contact_urls urljoin homepage (default "" content) with
      | Raises e => (Raises e, p2)
      | Returns contact_urls =>
          let '(email, p3) := run (follow email contact_urls) p2 in
          (Returns (Some (homepage, email)), p3)
      end
    else (Returns (Some (homepage, email)), p2).
Proof.
  intros Hhome Hnew content p1 p2. unfold process_website. rewrite Hhome.
  cbn [mbind coro_mbind coro_bind await].
  rewrite bool_decide_eq_false_2 by done. cbn [negb].
  rewrite await_bind. fold content p1.
  destruct (run (fetch homepage) p) as [c q] eqn:Hf. subst content p1. cbn [fst snd] in *.
  cbn [await]. fold p2.
  destruct (negb (Str.truthy c)); [done|].
  destruct (negb (Str.truthy (find_email (default "" c)))); [|done].
  destruct (find_contact_urls urljoin homepage (default "" c)) as [contact_urls|e]; [|done].
  rewrite await_bind. by destruct (run _ p2).
Qed.

(** C9 (amended).  [fetch] returns the text of the response exactly when
    the exchange ends with status 200 and the body can be read as text; for
    any other status, and when the request or the reading of the body raises
    (transport error, timeout, malformed URL, a body that cannot be decoded),
    it returns [None], a value.  When the fetch of the homepage fails,
    [process_website] returns the homepage with no email. *)
Theorem C9_fetch_failure_is_a_value (p : process World) :
  (∀ url text w,
      session_get url (network p) = (Response 200 (Returns text), w) →
      (run (fetch url) p).1 = Some text) ∧
  (∀ url status text w,
      session_get url (network p) = (Response status text, w) → status ≠ 200%Z →
      (run (fetch url) p).1 = None) ∧
  (∀ url status e w,
      session_get url (network p) = (Response status (Raises e), w) →
      (run (fetch url) p).1 = None) ∧
  (∀ url e w,
      session_get url (network p) = (Raised e, w) →
      (run (fetch url) p).1 = None) ∧
  (∀ url body,
      (run (fetch url) p).1 = Some body ↔
      ∃ w, session_get url (network p) = (Response 200 (Returns body), w)) ∧
  (∀ url homepage,
      extract_homepage urlsplit url = Returns homepage →
      homepage ∉ ALREADY_PROCESSED p →
      (run (fetch homepage) p).1 = None →
      run (visit url) p
      = (Returns (Some (homepage, None)),
         mkProcess ({[homepage]} ∪ ALREADY_PROCESSED p)
           (session_get homepage (network p)).2 (requests p ++ [homepage])%list)).
Proof.
  split; [|split; [|split; [|split; [|split]]]].
  - intros url text w H. by rewrite await_fetch, H.
  - intros url status text w H Hs. rewrite await_fetch, H. simpl.
    destruct text; [|done]. by destruct (Z.eqb_spec status 200).
  - intros url status e w H. by rewrite await_fetch, H.
  - intros url e w H. by rewrite await_fetch, H.
  - intros url body. rewrite await_fetch. simpl.
    destruct (session_get url (network p)) as [[status [text|e]|e] w]; simpl.
    + destruct (Z.eqb_spec status 200) as [->|Hs]; split.
      * intros [= ->]. eauto.
      * by intros [w' [= -> _]].
      * done.
      * intros [w' [= ? _]]. done.
    + split; [done | by intros [w' [=]]].
    + split; [done | by intros [w' [=]]].
  - intros url homepage Hhome Hnew Hfail. rewrite (await_visit _ _ _ Hhome) by done.
    rewrite Hfail. cbn [Str.truthy negb]. by rewrite await_fetch.
Qed.

(** C8.  In the loop over the contact candidates, a candidate that contains
    [@] becomes the email and the loop stops; any other candidate is
    fetched; a failed fetch moves on to the next candidate; the first
    candidate whose content yields an email ends the loop, and the candidates
    after it are never requested; when the list is exhausted the result
    carries no email. *)
Theorem C8_fallback_chain :
  (∀ email c rest p,
      Str.contains "@" c = true →
      run (follow email (c :: rest)) p = (Some c, p)) ∧
  (∀ email c rest p p1,
      Str.contains "@" c = false →
      run (fetch c) p = (None, p1) →
      run (follow email (c :: rest)) p = run (follow email rest) p1) ∧
  (∀ email c rest p content e p1,
      Str.contains "@" c = false →
      run (fetch c) p = (Some content, p1) →
      find_email content = Some e →
      run (follow email (c :: rest)) p = (Some e, p1) ∧
      requests p1 = (requests p ++ [c])%list) ∧
  (∀ c rest p content p1,
      Str.contains "@" c = false →
      run (fetch c) p = (Some content, p1) →
      find_email content = None →
      run (follow None (c :: rest)) p = run (follow None rest) p1) ∧
  (∀ p, run (follow None []) p = (None, p)) ∧
  (∀ cs p,
      ∃ tried,
        tried `prefix_of` cs ∧
        requests (run (follow None cs) p).2 = (requests p ++ tried)%list ∧
        ((run (follow None cs) p).1 = None → tried = cs)) ∧
  (∀ url homepage p content p1,
      extract_homepage urlsplit url = Returns homepage →
      homepage ∉ ALREADY_PROCESSED p →
      run (fetch homepage) p = (Some content, p1) →
      content ≠ "" →
      find_email content = None →
      (run (visit url) p).1
      = match find_contact_urls urljoin homepage content with
        | Returns contact_urls =>
            Returns
              (Some (homepage,
                     (run (follow None contact_urls)
                        (mkProcess ({[homepage]} ∪ ALREADY_PROCESSED p1) (network p1)
                           (requests p1))).1))
        | Raises e => Raises e
        end).
Proof.
  split; [|split; [|split; [|split; [|split; [|split]]]]].
  - intros email c rest p Hat. by rewrite follow_cons, Hat.
  - intros email c rest p p1 Hat Hf. by rewrite follow_cons, Hat, Hf.
  - intros email c rest p content e p1 Hat Hf He.
    rewrite follow_cons, Hat, Hf. cbn [from_option id]. rewrite He.
    rewrite (find_email_truthy _ _ He).
    assert (Str.truthy (Some content) = true) as ->.
    { destruct content; [by vm_compute in He | done]. }
    split; [done|]. rewrite await_fetch in Hf. by injection Hf as _ <-.
  - intros c rest p content p1 Hat Hf He.
    rewrite follow_cons, Hat, Hf. cbn [from_option id]. rewrite He. by destruct content.
  - done.
  - intros cs p. destruct (follow_requests cs p) as (tried & ? & ? & _ & ?). eauto.
  - intros url homepage p content p1 Hhome Hnew Hf Hne He.
    rewrite (await_visit _ _ _ Hhome) by done. rewrite Hf. cbn [fst snd from_option id].
    assert (Str.truthy (Some content) = true) as -> by (by destruct content).
    rewrite He. cbn [Str.truthy negb].
    destruct (find_contact_urls urljoin homepage content); [|done].
    by destruct (await World session_get (follow_contacts _ _) _).
Qed.

End Awaiting.

Lemma C9_fetch_failure_is_a_value_witness :
  EmailScraper.await unit small_web
    (EmailScraper.process_website Urllib.urlsplit Urllib.urljoin "https://down.example/page")
    (EmailScraper.fresh tt)
  = (Returns (Some ("https://down.example", None)),
     EmailScraper.mkProcess ({["https://down.example"]} ∪ ∅) tt ["https://down.example"]).
Proof.
  refine (proj2 (proj2 (proj2 (proj2 (proj2
            (C9_fetch_failure_is_a_value Urllib.urlsplit Urllib.urljoin unit small_web
               (EmailScraper.fresh tt))))))
            "https://down.example/page" "https://down.example" _ _ _).
  - vm_compute. reflexivity.
  - apply not_elem_of_empty.
  - vm_compute. reflexivity.
Defined.

(** The claim C9 as it was stated fails: a response with status 200 whose
    body cannot be decoded makes [fetch] return [None], not the body. *)
Lemma C9_counterexample :
  garbled_web "https://raw.example" tt = (Response 200 (Raises UnicodeDecodeError), tt) ∧
  EmailScraper.await unit garbled_web (EmailScraper.fetch "https://raw.example")
    (EmailScraper.fresh tt)
  = (None, EmailScraper.mkProcess ∅ tt ["https://raw.example"]).
Proof. split; vm_compute; reflexivity. Qed.

Lemma C8_fallback_chain_witness :
  let visit :=
    EmailScraper.await unit small_web
      (EmailScraper.process_website Urllib.urlsplit Urllib.urljoin "https://a.com/x")
      (EmailScraper.fresh tt) in
  visit.1 = Returns (Some ("https://a.com", Some "bob@a.com")) ∧
  EmailScraper.requests visit.2
  = ["https://a.com"; "https://a.com/contact"; "https://a.com/about"].
Proof.
  intros visit. split; [|vm_compute; reflexivity].
  unfold visit.
  rewrite (proj2 (proj2 (proj2 (proj2 (proj2 (proj2
             (C8_fallback_chain Urllib.urlsplit Urllib.urljoin unit small_web))))))
             "https://a.com/x" "https://a.com" (EmailScraper.fresh tt)
             ("<h1>A</h1>" +:+ anchor "/contact" +:+ anchor "/about" +:+ anchor "/terms")
             (EmailScraper.mkProcess ∅ tt ["https://a.com"])).
  - vm_compute. reflexivity.
  - vm_compute. reflexivity.
  - apply not_elem_of_empty.
  - vm_compute. reflexivity.
  - vm_compute. discriminate.
  - vm_compute. reflexivity.
Defined.

(** ** The event loop *)

Lemma advance_mono {A} (c : coro A) seen seen' x :
  EmailScraper.advance c seen = (seen', x) → seen ⊆ seen'.
Proof.
  revert seen. induction c as [a|h k IH|h k IH|url k IH]; intros seen; simpl.
  - by intros [= <- _].
  - apply IH.
  - intros H%IH. set_solver.
  - by intros [= <- _].
Qed.

Section EventLoop.

Import EmailScraper.

Variable World : Type.
Variable session_get : string → World → outcome * World.

Local Abbreviation step := (loop_step World session_get).
Local Abbreviation exec := (loop_run World session_get).

Lemma step_grows {A} e (l l' : loop World A) :
  step e l = Some l' →
  ALREADY_PROCESSED (proc l) ⊆ ALREADY_PROCESSED (proc l') ∧
  requests (proc l) `prefix_of` requests (proc l').
Proof.
  destruct e as [|j]; simpl.
  - destruct (ready l) as [|[i c] rest]; [done|].
    destruct (advance c _) as [seen [a|url k]] eqn:Hadv; intros [= <-]; simpl.
    + split; [by eapply advance_mono | done].
    + split; [by eapply advance_mono | by apply prefix_app_r].
  - destruct (waiting l !! j) as [[i [url k]]|]; [|done].
    destruct (session_get url _) as [o w]. by intros [= <-].
Qed.

Lemma exec_grows {A} schedule (l l' : loop World A) :
  exec schedule l = Some l' →
  ALREADY_PROCESSED (proc l) ⊆ ALREADY_PROCESSED (proc l') ∧
  requests (proc l) `prefix_of` requests (proc l').
Proof.
  revert l. induction schedule as [|e schedule IH]; intros l; simpl.
  - by intros [= <-].
  - destruct (step e l) as [l1|] eqn:Hstep; [|done]. intros Hrun.
    destruct (step_grows _ _ _ Hstep) as [? ?]. destruct (IH _ Hrun) as [? ?].
    split; by etrans.
Qed.

(** *** Invariants about one task

    [task_holds i Pr Pw Pd] is kept by every event when the three
    predicates are kept as the set grows and follow the task through its
    suspensions. *)
Section TaskInvariant.

Context {A : Type}.
Variable i : nat.
Variable Pr : gset string → coro A → Prop.
Variable Pw : gset string → string * (outcome → coro A) → Prop.
Variable Pd : gset string → A → Prop.

Hypothesis Pr_mono : ∀ seen seen' c, Pr seen c → seen ⊆ seen' → Pr seen' c.
Hypothesis Pw_mono : ∀ seen seen' x, Pw seen x → seen ⊆ seen' → Pw seen' x.
Hypothesis Pd_mono : ∀ seen seen' r, Pd seen r → seen ⊆ seen' → Pd seen' r.
Hypothesis advance_done :
  ∀ seen c seen' a, Pr seen c → advance c seen = (seen', Finished a) → Pd seen' a.
Hypothesis advance_wait :
  ∀ seen c seen' url k,
    Pr seen c → advance c seen = (seen', Suspended url k) → Pw seen' (url, k).
Hypothesis resume : ∀ seen url k o, Pw seen (url, k) → Pr seen (k o).

Local Abbreviation task_inv := (task_holds i Pr Pw Pd).

Lemma task_inv_step e l l' : step e l = Some l' → task_inv l → task_inv l'.
Proof.
  intros Hstep (Hr & Hw & Hd).
  destruct (step_grows _ _ _ Hstep) as [Hsub _]. revert Hstep Hsub.
  destruct e as [|j]; simpl.
  - destruct (ready l) as [|[i' c] rest] eqn:Hready; [done|].
    destruct (advance c _) as [seen [a|url k]] eqn:Hadv; intros [= <-]; simpl; intros Hsub.
    + repeat split; simpl.
      * intros c0 Hin. eapply Pr_mono; [apply Hr; by right | done].
      * intros x Hin. eapply Pw_mono; [by apply Hw | done].
      * intros r. destruct (decide (i' = i)) as [->|Hne].
        -- rewrite lookup_insert_eq. intros [= <-].
           eapply advance_done; [apply Hr; by left | done].
        -- rewrite lookup_insert_ne by done. intros Hfin.
           eapply Pd_mono; [by apply Hd | done].
    + repeat split; simpl.
      * intros c0 Hin. eapply Pr_mono; [apply Hr; by right | done].
      * intros x [Hin|Hin%list_elem_of_singleton]%elem_of_app.
        -- eapply Pw_mono; [by apply Hw | done].
        -- injection Hin as -> ->. eapply advance_wait; [apply Hr; by left | done].
      * intros r Hfin. eapply Pd_mono; [by apply Hd | done].
  - destruct (waiting l !! j) as [[i' [url k]]|] eqn:Hj; [|done].
    destruct (session_get url _) as [o w]. intros [= <-]; simpl; intros _.
    repeat split; simpl.
    + intros c0 [Hin|Hin%list_elem_of_singleton]%elem_of_app; [by apply Hr|].
      injection Hin as -> ->. eapply resume, Hw. by eapply list_elem_of_lookup_2.
    + intros x Hin. apply Hw. by eapply list_elem_of_delete_inv.
    + done.
Qed.

Lemma task_inv_exec schedule l l' :
  exec schedule l = Some l' → task_inv l → task_inv l'.
Proof.
  revert l. induction schedule as [|e schedule IH]; intros l; simpl.
  - by intros [= <-].
  - destruct (step e l) as [l1|] eqn:Hstep; [|done]. intros Hrun Hinv.
    eapply IH; [done|]. by eapply task_inv_step.
Qed.

End TaskInvariant.

End EventLoop.

(** ** [process_website] as a task *)

Lemma returns_weaken {A} (Q Q' : A → Prop) c :
  (∀ a, Q a → Q' a) → returns Q c → returns Q' c.
Proof. intros HQ. induction c; simpl; eauto. Qed.

Lemma returns_True {A} (c : coro A) : returns (λ _, True) c.
Proof. induction c; simpl; eauto. Qed.

Lemma returns_bind {A B} (Q : B → Prop) (f : A → coro B) c :
  (∀ a, returns Q (f a)) → returns Q (coro_bind f c).
Proof. intros Hf. induction c; simpl; eauto. Qed.

Lemma advance_returns {A} (Q : A → Prop) (c : coro A) seen :
  returns Q c →
  match (EmailScraper.advance c seen).2 with
  | EmailScraper.Finished a => Q a
  | EmailScraper.Suspended url k => ∀ o, returns Q (k o)
  end.
Proof.
  revert seen. induction c as [a|h k IH|h k IH|url k IH]; intros seen; simpl.
  - done.
  - intros H. apply IH, H.
  - apply IH.
  - done.
Qed.

Lemma advance_adds {A} homepage (c : coro A) seen :
  adds homepage c →
  match EmailScraper.advance c seen with
  | (seen', EmailScraper.Finished a) => homepage ∈ seen'
  | (seen', EmailScraper.Suspended url k) => homepage ∈ seen' ∨ ∀ o, adds homepage (k o)
  end.
Proof.
  revert seen. induction c as [a|h k IH|h k IH|url k IH]; intros seen; simpl.
  - done.
  - intros H. by apply IH.
  - intros [->|H].
    + destruct (EmailScraper.advance k _) as [seen' [a|url k']] eqn:Hadv;
        apply advance_mono in Hadv; [|left]; set_solver.
    + by apply IH.
  - intros H. by right.
Qed.

Section Coroutines.

Import EmailScraper.

Variable urlsplit : string → result Urllib.SplitResult.
Variable urljoin : string → string → result string.

Local Abbreviation visit := (process_website urlsplit urljoin).
Local Abbreviation home := (extract_homepage urlsplit).

Lemma scan_site_returns homepage content :
  returns (result_for homepage) (scan_site urljoin homepage content).
Proof.
  unfold scan_site. simpl. destruct (negb (Str.truthy content)); [by eexists|].
  destruct (negb (Str.truthy _)); [|by eexists].
  destruct (find_contact_urls _ _ _); [|done].
  apply returns_bind. intros email. by eexists.
Qed.

Lemma scan_site_adds homepage content : adds homepage (scan_site urljoin homepage content).
Proof. by left. Qed.

Lemma advance_visit_rejected url e seen :
  home url = Raises e → advance (visit url) seen = (seen, Finished (Raises e)).
Proof. intros Hhome. unfold process_website. by rewrite Hhome. Qed.

Lemma advance_visit_seen url h seen :
  home url = Returns h → h ∈ seen →
  advance (visit url) seen = (seen, Finished (Returns None)).
Proof.
  intros Hhome Hin. unfold process_website. rewrite Hhome. simpl.
  by rewrite bool_decide_eq_true_2.
Qed.

Lemma advance_visit_new url h seen :
  home url = Returns h → h ∉ seen →
  ∃ k, advance (visit url) seen = (seen, Suspended h k) ∧
       ∀ o, k o = scan_site urljoin h (fetched_text o).
Proof.
  intros Hhome Hnew. unfold process_website. rewrite Hhome. simpl.
  rewrite bool_decide_eq_false_2 by done.
  simpl. eexists. split; [done|].
  intros [status [text|e]|e]; simpl; [by destruct (status =? 200)%Z..|done].
Qed.

End Coroutines.

Section Tasks.

Import EmailScraper.

Variable urlsplit : string → result Urllib.SplitResult.
Variable urljoin : string → string → result string.
Variable World : Type.
Variable session_get : string → World → outcome * World.

Local Abbreviation visit := (process_website urlsplit urljoin).
Local Abbreviation home := (extract_homepage urlsplit).
Local Abbreviation exec := (loop_run World session_get).

Lemma gather_loop_inv {A} n schedule (l : loop World (result A)) results p' :
  gather_loop World session_get n schedule l = Some (Returns results, p') →
  ∃ l',
    exec schedule l = Some l' ∧
    idle l' = true ∧
    Forall2 (λ i r, finished l' !! i = Some (Returns r)) (seq 0 n) results ∧
    p' = proc l'.
Proof.
  revert l. induction schedule as [|e schedule IH]; intros l; cbn [gather_loop loop_run].
  - destruct (raised_task n l); [done|].
    destruct (idle l) eqn:Hidle; [|done].
    destruct (mapM _ _) as [rs|] eqn:HM; [|done]. intros [= <- <-].
    exists l. repeat split; try done.
    apply mapM_Some_1 in HM. eapply Forall2_impl; [exact HM|].
    intros i r. unfold returned. by destruct (finished l !! i) as [[a|e]|]; intros [= <-].
  - destruct (raised_task n l).
    { by destruct (loop_step _ _ e l) as [l1|]; [destruct (exec schedule l1)|]. }
    destruct (loop_step _ _ e l) as [l1|]; [|done]. apply IH.
Qed.

(** what [gather] returns comes from a run of the loop to its end *)
Lemma gather_inv {A} (coros : list (coro (result A))) schedule p results p' :
  gather World session_get coros schedule p = Some (Returns results, p') →
  ∃ l,
    exec schedule (mkLoop p (imap (λ i c, (i, c)) coros) [] ∅) = Some l ∧
    idle l = true ∧
    Forall2 (λ i r, finished l !! i = Some (Returns r)) (seq 0 (length coros)) results ∧
    p' = proc l.
Proof. apply gather_loop_inv. Qed.

Lemma results_lookup {A} (fin : gmap nat (result A)) n results i :
  Forall2 (λ i r, fin !! i = Some (Returns r)) (seq 0 n) results →
  (i < n)%nat →
  ∃ r, results !! i = Some r ∧ fin !! i = Some (Returns r).
Proof.
  intros HF Hi.
  destruct (Forall2_lookup_l _ _ _ i i HF) as (r & Hr & Hfin); [by apply lookup_seq|].
  eauto.
Qed.

Lemma initial_ready {A} (coros : list (coro A)) i c :
  (i, c) ∈ imap (λ i c, (i, c)) coros → coros !! i = Some c.
Proof. intros (j & c' & [= -> ->] & Hj)%elem_of_lookup_imap_1. done. Qed.

(** a URL whose homepage is in the set when [gather] starts yields [None] *)
Lemma gather_skips urls schedule p results p' i url h :
  gather World session_get (map visit urls) schedule p = Some (Returns results, p') →
  urls !! i = Some url →
  home url = Returns h →
  h ∈ ALREADY_PROCESSED p →
  results !! i = Some None.
Proof.
  intros (l & Hrun & _ & HF & _)%gather_inv Hi Hhome Hseen.
  pose (Pr := λ (seen : gset string) c, h ∈ seen ∧ c = visit url).
  pose (Pw := λ (_ : gset string)
                (_ : string * (outcome → coro (result (option (string * option string))))),
              False).
  pose (Pd := λ (_ : gset string) (r : result (option (string * option string))),
              r = Returns None).
  assert (task_holds i Pr Pw Pd l) as (_ & _ & Hd).
  { eapply (task_inv_exec World session_get i Pr Pw Pd); [..|exact Hrun|]; unfold Pr, Pw, Pd.
    - intros seen seen' c [? ->] ?. split; [set_solver | done].
    - done.
    - done.
    - intros seen c seen' a [Hin ->].
      rewrite (advance_visit_seen urlsplit urljoin _ _ _ Hhome) by done. by intros [= _ <-].
    - intros seen c seen' u k [Hin ->].
      by rewrite (advance_visit_seen urlsplit urljoin _ _ _ Hhome).
    - done.
    - unfold task_holds. simpl. split; [|split].
      + intros c Hc%initial_ready. rewrite list_lookup_fmap, Hi in Hc.
        split; [done | by injection Hc].
      + intros x Hx. by apply elem_of_nil in Hx.
      + intros r. by rewrite lookup_empty. }
  rewrite length_map in HF.
  destruct (results_lookup _ _ _ i HF) as (r & Hr & Hfin); [by eapply lookup_lt_Some|].
  rewrite Hr. f_equal. apply Hd in Hfin. by injection Hfin.
Qed.

(** the set only grows during [gather], and the homepage of every URL is in
    it at the end *)
Lemma gather_adds urls schedule p results p' :
  gather World session_get (map visit urls) schedule p = Some (Returns results, p') →
  ALREADY_PROCESSED p ⊆ ALREADY_PROCESSED p' ∧
  requests p `prefix_of` requests p' ∧
  ∀ url h, url ∈ urls → home url = Returns h → h ∈ ALREADY_PROCESSED p'.
Proof.
  intros (l & Hrun & _ & HF & ->)%gather_inv.
  destruct (exec_grows _ _ _ _ _ Hrun) as [Hsub Hreq]. simpl in Hsub, Hreq.
  split; [done|]. split; [done|].
  intros url h (i & Hi)%list_elem_of_lookup_1 Hhome.
  pose (Pr := λ (seen : gset string)
                (c : coro (result (option (string * option string)))),
          h ∈ seen ∨ c = visit url ∨ adds h c).
  pose (Pw := λ (seen : gset string)
                (x : string * (outcome → coro (result (option (string * option string))))),
          h ∈ seen ∨ ∀ o, adds h (x.2 o)).
  pose (Pd := λ (seen : gset string) (_ : result (option (string * option string))),
          h ∈ seen).
  assert (task_holds i Pr Pw Pd l) as (_ & _ & Hd).
  { eapply (task_inv_exec World session_get i Pr Pw Pd); [..|exact Hrun|]; unfold Pr, Pw, Pd.
    - intros seen seen' c [?|?] ?; [left; set_solver | by right].
    - intros seen seen' x [?|?] ?; [left; set_solver | by right].
    - intros seen seen' r ? ?. set_solver.
    - intros seen c seen' a H Hadv.
      destruct (decide (h ∈ seen)) as [Hin|Hnew].
      { apply advance_mono in Hadv. by eapply elem_of_weaken. }
      destruct H as [?|[->|Hadds]]; [done| |].
      + destruct (advance_visit_new urlsplit urljoin url h seen Hhome Hnew) as (k & Hk & _).
        congruence.
      + pose proof (advance_adds _ c seen Hadds) as H. by rewrite Hadv in H.
    - intros seen c seen' u k H Hadv. simpl.
      destruct (decide (h ∈ seen)) as [Hin|Hnew].
      { apply advance_mono in Hadv. left. by eapply elem_of_weaken. }
      destruct H as [?|[->|Hadds]]; [done| |].
      + destruct (advance_visit_new urlsplit urljoin url h seen Hhome Hnew)
          as (k' & Hk & Hscan).
        rewrite Hk in Hadv. injection Hadv as <- <- <-. right. intros o.
        rewrite Hscan. apply scan_site_adds.
      + pose proof (advance_adds _ c seen Hadds) as H. by rewrite Hadv in H.
    - intros seen u k o [?|H]; [by left | right; right; apply H].
    - unfold task_holds. simpl. split; [|split].
      + intros c Hc%initial_ready. rewrite list_lookup_fmap, Hi in Hc.
        right. left. by injection Hc.
      + intros x Hx. by apply elem_of_nil in Hx.
      + intros r. by rewrite lookup_empty. }
  rewrite length_map in HF.
  destruct (results_lookup _ _ _ i HF) as (r & Hr & Hfin); [by eapply lookup_lt_Some|].
  by eapply Hd.
Qed.

End Tasks.

(** ** Batch runs *)

Lemma write_rows_none results i :
  results !! i = Some None →
  EmailScraper.raised (EmailScraper.write_rows results) = Some TypeError.
Proof.
  revert i. induction results as [|[[url email]|] results IH]; intros i.
  - by rewrite lookup_nil.
  - destruct i as [|i]; [done|]. simpl. apply IH.
  - done.
Qed.

Lemma split_two {A} (l : list A) i j x y :
  (i < j)%nat → l !! i = Some x → l !! j = Some y →
  ∃ a b c, l = (a ++ x :: b ++ y :: c)%list.
Proof.
  intros Hij Hi Hj.
  assert (drop (S i) l !! (j - S i)%nat = Some y) as Hj'.
  { rewrite lookup_drop. by replace (S i + (j - S i))%nat with j by lia. }
  exists (take i l), (take (j - S i) (drop (S i) l)), (drop (S (j - S i)) (drop (S i) l)).
  rewrite (take_drop_middle _ _ _ Hj'). by rewrite (take_drop_middle _ _ _ Hi).
Qed.

Section Batch.

Import EmailScraper.

Variable urlsplit : string → result Urllib.SplitResult.
Variable urljoin : string → string → result string.
Variable World : Type.
Variable session_get : string → World → outcome * World.

Local Abbreviation visit := (process_website urlsplit urljoin).
Local Abbreviation home := (extract_homepage urlsplit).
Local Abbreviation exec := (loop_run World session_get).

Lemma scrape_emails_inv urls schedule p rep p' :
  scrape_emails urlsplit urljoin World session_get urls schedule p
  = Some (Returns rep, p') →
  ∃ results,
    gather World session_get (map visit urls) schedule p = Some (Returns results, p') ∧
    rep = mkReport (["Website"; "Email"] :: rows (write_rows results))
            (raised (write_rows results)).
Proof.
  unfold scrape_emails. destruct (gather _ _ _ _ _) as [[[results|e] q]|]; [|done..].
  intros [= <- <-]. by exists results.
Qed.

Lemma first_requests_snoc seen urls url :
  first_requests urlsplit seen (urls ++ [url])
  = (first_requests urlsplit seen urls
     ++ match home url with
        | Returns h => if bool_decide (h ∈ seen) then [] else [h]
        | Raises _ => []
        end)%list.
Proof.
  unfold first_requests. rewrite flat_map_app. simpl. by rewrite List.app_nil_r.
Qed.

Lemma initial_drop urls k url :
  urls !! k = Some url →
  drop k (imap (λ i c, (i, c)) (map visit urls))
  = (k, visit url) :: drop (S k) (imap (λ i c, (i, c)) (map visit urls)).
Proof.
  intros Hk. apply drop_S. by rewrite list_lookup_imap, list_lookup_fmap, Hk.
Qed.

(** every event keeps the invariant of the batch run *)
Lemma started_step urls p0 e l l' :
  loop_step World session_get e l = Some l' →
  started urlsplit urljoin urls p0 l → started urlsplit urljoin urls p0 l'.
Proof.
  intros Hstep (k & resumed & Hk & Hready & Hres & Hwait & Hfin & Hfresh & Hpre).
  destruct e as [|j]; unfold loop_step in Hstep.
  - rewrite Hready in Hstep.
    destruct (decide (k < length urls)%nat) as [Hlt|Hge].
    + destruct (lookup_lt_is_Some_2 urls k Hlt) as [url Hurl].
      rewrite (initial_drop _ _ _ Hurl) in Hstep. cbn [app] in Hstep.
      destruct (Hfresh Hlt) as [Hap Hreq]. rewrite Hap in Hstep.
      assert (take (S k) urls = (take k urls ++ [url])%list) as Htake
        by by apply take_S_r.
      destruct (extract_homepage urlsplit url) as [h|e0] eqn:Hhome.
      * destruct (decide (h ∈ ALREADY_PROCESSED p0)) as [Hin|Hnew].
        -- rewrite (advance_visit_seen urlsplit urljoin _ _ _ Hhome) in Hstep by done.
           injection Hstep as <-. exists (S k), resumed. simpl.
           rewrite Htake, first_requests_snoc, Hhome, bool_decide_eq_true_2 by done.
           rewrite List.app_nil_r.
           split; [lia|]. split; [done|]. split; [done|]. split; [done|]. split.
           { intros i r. destruct (decide (k = i)) as [<-|Hne].
             - rewrite lookup_insert_eq. intros [= <-]. exists url. split; [done|].
               unfold expected_result. by rewrite Hhome, bool_decide_eq_true_2.
             - rewrite lookup_insert_ne by done. apply Hfin. }
           split; [|by rewrite <- Hreq].
           intros _. by rewrite <- Hreq.
        -- destruct (advance_visit_new urlsplit urljoin url h _ Hhome Hnew)
             as (K & HK & Hscan).
           rewrite HK in Hstep. injection Hstep as <-. exists (S k), resumed. simpl.
           rewrite Htake, first_requests_snoc, Hhome, bool_decide_eq_false_2 by done.
           rewrite List.app_assoc, <- Hreq.
           split; [lia|]. split; [done|]. split; [done|]. split.
           { intros i x [Hin|Hin%list_elem_of_singleton]%elem_of_app; [by apply Hwait|].
             injection Hin as -> ->. exists url, h. split; [done|]. split; [done|].
             split; [done|]. intros o. simpl. rewrite Hscan. apply scan_site_returns. }
           done.
      * rewrite (advance_visit_rejected urlsplit urljoin _ _ _ Hhome) in Hstep.
        injection Hstep as <-. exists (S k), resumed. simpl.
        rewrite Htake, first_requests_snoc, Hhome, List.app_nil_r.
        split; [lia|]. split; [done|]. split; [done|]. split; [done|]. split.
        { intros i r. destruct (decide (k = i)) as [<-|Hne].
          - rewrite lookup_insert_eq. intros [= <-]. exists url. split; [done|].
            unfold expected_result. by rewrite Hhome.
          - rewrite lookup_insert_ne by done. apply Hfin. }
        split; [|by rewrite <- Hreq].
        intros _. by rewrite <- Hreq.
    + assert (k = length urls) as -> by lia.
      rewrite drop_ge in Hstep by (rewrite length_imap, length_map; lia).
      rewrite drop_ge in Hready by (rewrite length_imap, length_map; lia).
      cbn [app] in Hstep, Hready.
      destruct resumed as [|[i c] rest]; [done|].
      destruct (Hres i c) as (url & h & Hurl & Hhome & Hnew & Hc); [by left|].
      pose proof (advance_returns _ c (ALREADY_PROCESSED (proc l)) Hc) as Hadv.
      destruct (advance c _) as [seen [a|u K]] eqn:Ha; injection Hstep as <-;
        exists (length urls), rest; simpl in *.
      * split; [lia|]. split; [by rewrite drop_ge by (rewrite length_imap, length_map; lia)|].
        split; [intros ???; apply Hres; by right|]. split; [done|]. split.
        { intros i' r. destruct (decide (i = i')) as [<-|Hne].
          - rewrite lookup_insert_eq. intros [= <-]. exists url. split; [done|].
            unfold expected_result. by rewrite Hhome, bool_decide_eq_false_2.
          - rewrite lookup_insert_ne by done. apply Hfin. }
        split; [lia | done].
      * split; [lia|]. split; [by rewrite drop_ge by (rewrite length_imap, length_map; lia)|].
        split; [intros ???; apply Hres; by right|]. split.
        { intros i' x [Hin|Hin%list_elem_of_singleton]%elem_of_app; [by apply Hwait|].
          injection Hin as -> ->. by exists url, h. }
        split; [done|]. split; [lia | by apply prefix_app_r].
  - destruct (waiting l !! j) as [[i [u K]]|] eqn:Hj; [|done].
    destruct (session_get u _) as [o w]. injection Hstep as <-.
    exists k, (resumed ++ [(i, K o)])%list. simpl.
    split; [done|]. split; [by rewrite Hready, List.app_assoc|]. split.
    { intros i' c [Hin|Hin%list_elem_of_singleton]%elem_of_app; [by apply Hres|].
      injection Hin as -> ->.
      destruct (Hwait i (u, K)) as (url & h & ? & ? & ? & HK);
        [by eapply list_elem_of_lookup_2|].
      exists url, h. split; [done|]. split; [done|]. split; [done|]. apply HK. }
    split; [|done].
    intros i' x Hin. apply Hwait. by eapply list_elem_of_delete_inv.
Qed.

Lemma started_exec urls p0 schedule l l' :
  exec schedule l = Some l' →
  started urlsplit urljoin urls p0 l → started urlsplit urljoin urls p0 l'.
Proof.
  revert l. induction schedule as [|e schedule IH]; intros l; simpl.
  - by intros [= <-].
  - destruct (loop_step _ _ e l) as [l1|] eqn:Hstep; [|done]. intros Hrun Hinv.
    eapply IH; [done|]. by eapply started_step.
Qed.

(** a task that returned ran on a URL that has a homepage *)
Lemma expected_returned seen url r :
  expected_result urlsplit seen url (Returns r) →
  ∃ h, home url = Returns h ∧
       if bool_decide (h ∈ seen) then r = None else ∃ email, r = Some (h, email).
Proof.
  unfold expected_result. destruct (extract_homepage urlsplit url) as [h|e]; [|done].
  intros H. exists h. split; [done|]. destruct (bool_decide _); [by injection H | done].
Qed.

(** What a batch run does with the set it starts from: the run opens with a
    request for the homepage of every URL whose homepage is not in that set,
    duplicates included, and only the URLs whose homepage is in it are
    skipped. *)
Lemma gather_characterised urls schedule p results p' :
  gather World session_get (map visit urls) schedule p = Some (Returns results, p') →
  (requests p ++ first_requests urlsplit (ALREADY_PROCESSED p) urls)%list
    `prefix_of` requests p' ∧
  Forall2 (λ url r, expected_result urlsplit (ALREADY_PROCESSED p) url (Returns r))
    urls results.
Proof.
  intros (l & Hrun & Hidle & HF & ->)%gather_inv.
  assert (started urlsplit urljoin urls p l)
    as (k & resumed & Hk & Hready & _ & _ & Hfin & _ & Hpre).
  { eapply started_exec; [exact Hrun|]. exists 0%nat, []. simpl.
    split; [lia|]. split; [by rewrite List.app_nil_r|].
    split; [by intros ?? ?%elem_of_nil|]. split; [by intros ?? ?%elem_of_nil|].
    split; [intros ??; by rewrite lookup_empty|].
    rewrite List.app_nil_r. split; [done | done]. }
  assert (k = length urls) as ->.
  { unfold idle in Hidle. rewrite Hready in Hidle.
    destruct (drop k _) eqn:Hdrop; [|done].
    apply (f_equal length) in Hdrop. rewrite length_drop, length_imap, length_map in Hdrop.
    simpl in Hdrop. lia. }
  rewrite take_ge in Hpre by done. split; [done|].
  rewrite length_map in HF.
  apply Forall2_same_length_lookup. split.
  - apply Forall2_length in HF. rewrite length_seq in HF. done.
  - intros i url r Hurl Hr.
    destruct (Forall2_lookup_r _ _ _ _ _ HF Hr) as (idx & Hidx & Hfi).
    apply lookup_seq in Hidx as [-> _]. simpl in Hfi.
    destruct (Hfin _ _ Hfi) as (url' & Hurl' & Hexp). congruence.
Qed.

Lemma first_requests_app seen urls1 urls2 :
  first_requests urlsplit seen (urls1 ++ urls2)
  = (first_requests urlsplit seen urls1 ++ first_requests urlsplit seen urls2)%list.
Proof. unfold first_requests. by rewrite flat_map_app. Qed.

Lemma first_requests_new seen url h urls :
  home url = Returns h → h ∉ seen →
  first_requests urlsplit seen (url :: urls)
  = h :: first_requests urlsplit seen urls.
Proof.
  intros Hhome Hnew. unfold first_requests. simpl.
  by rewrite Hhome, bool_decide_eq_false_2.
Qed.

(** two URLs of one homepage that is not in the set, anywhere in the batch:
    each gets its own request and its own result *)
Lemma duplicates_in_batch urls i j u1 u2 h schedule p results p' :
  (i < j)%nat → urls !! i = Some u1 → urls !! j = Some u2 →
  home u1 = Returns h → home u2 = Returns h →
  h ∉ ALREADY_PROCESSED p →
  gather World session_get (map visit urls) schedule p = Some (Returns results, p') →
  (∃ before between after,
      requests p'
      = (requests p ++ before ++ h :: between ++ h :: after)%list) ∧
  ∃ email1 email2,
    results !! i = Some (Some (h, email1)) ∧
    results !! j = Some (Some (h, email2)).
Proof.
  intros Hij Hi Hj Hh1 Hh2 Hnew [[later Hreq] HF]%gather_characterised. split.
  - destruct (split_two urls i j u1 u2 Hij Hi Hj) as (a & b & c & ->).
    rewrite Hreq, first_requests_app, (first_requests_new _ _ _ _ Hh1 Hnew).
    rewrite first_requests_app, (first_requests_new _ _ _ _ Hh2 Hnew).
    exists (first_requests urlsplit (ALREADY_PROCESSED p) a),
      (first_requests urlsplit (ALREADY_PROCESSED p) b),
      (first_requests urlsplit (ALREADY_PROCESSED p) c ++ later)%list.
    repeat (rewrite <- List.app_assoc; cbn [app]). done.
  - destruct (Forall2_lookup_l _ _ _ _ _ HF Hi) as (r1 & Hr1 & He1).
    destruct (Forall2_lookup_l _ _ _ _ _ HF Hj) as (r2 & Hr2 & He2).
    unfold expected_result in He1, He2. rewrite Hh1 in He1. rewrite Hh2 in He2.
    rewrite bool_decide_eq_false_2 in He1, He2 by done.
    destruct He1 as [email1 ->]. destruct He2 as [email2 ->]. eauto.
Qed.

(** so [gather] requests the homepage twice and returns two results for it *)
Lemma duplicates_results u1 u2 h schedule p results p' :
  home u1 = Returns h → home u2 = Returns h →
  h ∉ ALREADY_PROCESSED p →
  gather World session_get (map visit [u1; u2]) schedule p = Some (Returns results, p') →
  (∃ later, requests p' = (requests p ++ h :: h :: later)%list) ∧
  ∃ email1 email2, results = [Some (h, email1); Some (h, email2)].
Proof.
  intros Hh1 Hh2 Hnew [[later Hreq] HF]%gather_characterised. split.
  - exists later. rewrite Hreq. unfold first_requests. simpl.
    rewrite Hh1, Hh2, bool_decide_eq_false_2 by done. simpl.
    by rewrite <- List.app_assoc.
  - apply Forall2_cons_inv_l in HF as (r0 & rest & Hr0 & HF & ->).
    apply Forall2_cons_inv_l in HF as (r1 & rest' & Hr1 & HF & ->).
    apply Forall2_nil_inv_l in HF as ->.
    unfold expected_result in Hr0, Hr1. rewrite Hh1 in Hr0. rewrite Hh2 in Hr1.
    rewrite bool_decide_eq_false_2 in Hr0, Hr1 by done.
    destruct Hr0 as [email1 ->]. destruct Hr1 as [email2 ->]. eauto.
Qed.

End Batch.

(** C1 (what the code does on the failing input).  Two URLs of one
    homepage that is not in the set yet, anywhere in the list given to one
    batch run: whatever the order in which the exchanges end, the homepage is
    requested once for each of them and each gets a result of its own.  When
    the request for the homepage starts, the set is as it was: the homepage
    is added only after the fetch has returned. *)
Theorem C1_same_homepage_fetched_twice
    (urlsplit : string → result Urllib.SplitResult)
    (urljoin : string → string → result string)
    (World : Type) (session_get : string → World → outcome * World)
    (urls : list string) (i j : nat) (u1 u2 homepage : string)
    (schedule : list EmailScraper.event)
    (p p' : EmailScraper.process World)
    (results : list (option (string * option string))) :
  (i < j)%nat → urls !! i = Some u1 → urls !! j = Some u2 →
  EmailScraper.extract_homepage urlsplit u1 = Returns homepage →
  EmailScraper.extract_homepage urlsplit u2 = Returns homepage →
  homepage ∉ EmailScraper.ALREADY_PROCESSED p →
  EmailScraper.gather World session_get
    (map (EmailScraper.process_website urlsplit urljoin) urls) schedule p
  = Some (Returns results, p') →
  (∃ before between after,
      EmailScraper.requests p'
      = (EmailScraper.requests p
         ++ before ++ homepage :: between ++ homepage :: after)%list) ∧
  (∃ email1 email2,
      results !! i = Some (Some (homepage, email1)) ∧
      results !! j = Some (Some (homepage, email2))) ∧
  (∃ k,
      EmailScraper.advance (EmailScraper.process_website urlsplit urljoin u1)
        (EmailScraper.ALREADY_PROCESSED p)
      = (EmailScraper.ALREADY_PROCESSED p, EmailScraper.Suspended homepage k)).
Proof.
  intros Hij Hi Hj Hh1 Hh2 Hnew Hgather.
  destruct (duplicates_in_batch urlsplit urljoin World session_get
              urls i j u1 u2 homepage schedule p results p' Hij Hi Hj Hh1 Hh2 Hnew Hgather)
    as [Hreq Hres].
  split; [done|]. split; [done|].
  destruct (advance_visit_new urlsplit urljoin u1 homepage _ Hh1 Hnew) as (k & Hk & _).
  eauto.
Qed.

Lemma C1_same_homepage_fetched_twice_witness :
  EmailScraper.gather unit small_web
    (map (EmailScraper.process_website Urllib.urlsplit Urllib.urljoin)
       ["https://a.com/x"; "https://a.com/y"])
    pair_schedule (EmailScraper.fresh tt)
  = Some (Returns [Some ("https://a.com", Some "bob@a.com");
                   Some ("https://a.com", Some "bob@a.com")],
          after_both_visits) ∧
  (∃ before between after,
      EmailScraper.requests after_both_visits
      = (before ++ "https://a.com" :: between ++ "https://a.com" :: after)%list) ∧
  ∃ email1 email2,
    [Some ("https://a.com", Some "bob@a.com"); Some ("https://a.com", Some "bob@a.com")]
      !! 0%nat = Some (Some ("https://a.com", email1)) ∧
    [Some ("https://a.com", Some "bob@a.com"); Some ("https://a.com", Some "bob@a.com")]
      !! 1%nat = Some (Some ("https://a.com", email2)).
Proof.
  assert (EmailScraper.gather unit small_web
            (map (EmailScraper.process_website Urllib.urlsplit Urllib.urljoin)
               ["https://a.com/x"; "https://a.com/y"])
            pair_schedule (EmailScraper.fresh tt)
          = Some (Returns [Some ("https://a.com", Some "bob@a.com");
                           Some ("https://a.com", Some "bob@a.com")],
                  after_both_visits)) as Hgather by (vm_compute; reflexivity).
  assert (EmailScraper.extract_homepage Urllib.urlsplit "https://a.com/x"
          = Returns "https://a.com") as Hh1 by (vm_compute; reflexivity).
  assert (EmailScraper.extract_homepage Urllib.urlsplit "https://a.com/y"
          = Returns "https://a.com") as Hh2 by (vm_compute; reflexivity).
  split; [exact Hgather|].
  destruct (C1_same_homepage_fetched_twice Urllib.urlsplit Urllib.urljoin
              unit small_web ["https://a.com/x"; "https://a.com/y"] 0 1
              "https://a.com/x" "https://a.com/y" "https://a.com" pair_schedule
              (EmailScraper.fresh tt) after_both_visits _
              (Nat.lt_0_1) eq_refl eq_refl Hh1 Hh2 (not_elem_of_empty _) Hgather)
    as (Hreq & Hres & _).
  split; [exact Hreq | exact Hres].
Defined.

(** C2 (what the code does on the failing inputs).  A URL whose homepage is
    a duplicate is not left out of the results.  Two URLs of one homepage
    that is not in the set yet both reach the report: the writing loop sees a
    result for each.  And a batch run that is given a URL whose homepage is
    already in the set ends, whatever the schedule, with [TypeError]: the
    task of that URL returns [None], and the loop that writes the report
    unpacks every result as a pair. *)
Theorem C2_duplicate_reaches_report
    (urlsplit : string → result Urllib.SplitResult)
    (urljoin : string → string → result string)
    (World : Type) (session_get : string → World → outcome * World)
    (schedule : list EmailScraper.event)
    (p p' : EmailScraper.process World) (rep : EmailScraper.report) :
  (∀ u1 u2 homepage,
      EmailScraper.extract_homepage urlsplit u1 = Returns homepage →
      EmailScraper.extract_homepage urlsplit u2 = Returns homepage →
      homepage ∉ EmailScraper.ALREADY_PROCESSED p →
      EmailScraper.scrape_emails urlsplit urljoin World session_get [u1; u2] schedule p
      = Some (Returns rep, p') →
      ∃ email1 email2,
        rep = EmailScraper.mkReport
                (["Website"; "Email"]
                 :: (if Str.truthy email1 then [[homepage; default "" email1]] else [])
                 ++ (if Str.truthy email2 then [[homepage; default "" email2]] else []))
                None) ∧
  (∀ urls i url homepage,
      urls !! i = Some url →
      EmailScraper.extract_homepage urlsplit url = Returns homepage →
      homepage ∈ EmailScraper.ALREADY_PROCESSED p →
      EmailScraper.scrape_emails urlsplit urljoin World session_get urls schedule p
      = Some (Returns rep, p') →
      EmailScraper.raised rep = Some TypeError).
Proof.
  split.
  - intros u1 u2 homepage Hh1 Hh2 Hnew (results & Hg & ->)%scrape_emails_inv.
    destruct (duplicates_results urlsplit urljoin World session_get
                u1 u2 homepage schedule p results p' Hh1 Hh2 Hnew Hg)
      as (_ & email1 & email2 & ->).
    exists email1, email2. simpl. by rewrite List.app_nil_r.
  - intros urls i url homepage Hi Hhome Hseen (results & Hg & ->)%scrape_emails_inv. simpl.
    eapply write_rows_none. by eapply gather_skips.
Qed.

Lemma C2_duplicate_reaches_report_witness :
  (EmailScraper.scrape_emails Urllib.urlsplit Urllib.urljoin unit small_web
     ["https://a.com/x"; "https://a.com/y"] pair_schedule (EmailScraper.fresh tt)
   = Some (Returns
             (EmailScraper.mkReport
                [["Website"; "Email"]; ["https://a.com"; "bob@a.com"];
                 ["https://a.com"; "bob@a.com"]] None),
           after_both_visits) ∧
   ∃ email1 email2,
     EmailScraper.mkReport
       [["Website"; "Email"]; ["https://a.com"; "bob@a.com"];
        ["https://a.com"; "bob@a.com"]] None
     = EmailScraper.mkReport
         (["Website"; "Email"]
          :: (if Str.truthy email1 then [["https://a.com"; default "" email1]] else [])
          ++ (if Str.truthy email2 then [["https://a.com"; default "" email2]] else []))
         None) ∧
  (EmailScraper.scrape_emails Urllib.urlsplit Urllib.urljoin unit small_web
     ["https://a.com/x"] [EmailScraper.Step] after_first_run
   = Some (Returns (EmailScraper.mkReport [["Website"; "Email"]] (Some TypeError)),
           after_first_run) ∧
   EmailScraper.raised (EmailScraper.mkReport [["Website"; "Email"]] (Some TypeError))
   = Some TypeError).
Proof.
  assert (EmailScraper.scrape_emails Urllib.urlsplit Urllib.urljoin unit small_web
            ["https://a.com/x"; "https://a.com/y"] pair_schedule (EmailScraper.fresh tt)
          = Some (Returns
                    (EmailScraper.mkReport
                       [["Website"; "Email"]; ["https://a.com"; "bob@a.com"];
                        ["https://a.com"; "bob@a.com"]] None),
                  after_both_visits)) as Hrun1 by (vm_compute; reflexivity).
  assert (EmailScraper.scrape_emails Urllib.urlsplit Urllib.urljoin unit small_web
            ["https://a.com/x"] [EmailScraper.Step] after_first_run
          = Some (Returns (EmailScraper.mkReport [["Website"; "Email"]] (Some TypeError)),
                  after_first_run)) as Hrun2 by (vm_compute; reflexivity).
  assert (EmailScraper.extract_homepage Urllib.urlsplit "https://a.com/x"
          = Returns "https://a.com") as Hh1 by (vm_compute; reflexivity).
  assert (EmailScraper.extract_homepage Urllib.urlsplit "https://a.com/y"
          = Returns "https://a.com") as Hh2 by (vm_compute; reflexivity).
  split; (split; [done|]).
  - exact (proj1 (C2_duplicate_reaches_report Urllib.urlsplit Urllib.urljoin unit small_web
                    pair_schedule (EmailScraper.fresh tt) after_both_visits _)
             "https://a.com/x" "https://a.com/y" "https://a.com" Hh1 Hh2
             (not_elem_of_empty _) Hrun1).
  - refine (proj2 (C2_duplicate_reaches_report Urllib.urlsplit Urllib.urljoin unit small_web
                     [EmailScraper.Step] after_first_run after_first_run _)
              ["https://a.com/x"] 0 "https://a.com/x" "https://a.com" eq_refl Hh1 _ Hrun2).
    vm_compute. reflexivity.
Defined.

(** C3 (amended).  [ALREADY_PROCESSED] belongs to the process, not to the
    run: [scrape_emails] starts from the set it finds and leaves a set
    that contains it and the homepage of every URL of the run.  In a later
    run of the same process, a URL with one of these homepages is not
    processed again: its task returns [None] at once, without a request. *)
Theorem C3_set_outlives_the_run
    (urlsplit : string → result Urllib.SplitResult)
    (urljoin : string → string → result string)
    (World : Type) (session_get : string → World → outcome * World)
    (urls1 : list string) (schedule1 : list EmailScraper.event)
    (p p1 : EmailScraper.process World) (rep1 : EmailScraper.report) :
  EmailScraper.scrape_emails urlsplit urljoin World session_get urls1 schedule1 p
  = Some (Returns rep1, p1) →
  EmailScraper.ALREADY_PROCESSED p ⊆ EmailScraper.ALREADY_PROCESSED p1 ∧
  (∀ url, url ∈ urls1 →
          ∃ homepage,
            EmailScraper.extract_homepage urlsplit url = Returns homepage ∧
            homepage ∈ EmailScraper.ALREADY_PROCESSED p1) ∧
  (∀ url homepage seen,
      EmailScraper.extract_homepage urlsplit url = Returns homepage →
      homepage ∈ seen →
      EmailScraper.advance (EmailScraper.process_website urlsplit urljoin url) seen
      = (seen, EmailScraper.Finished (Returns None))) ∧
  (∀ urls2 schedule2 results2 p2 i url url1 homepage,
      EmailScraper.gather World session_get
        (map (EmailScraper.process_website urlsplit urljoin) urls2) schedule2 p1
      = Some (Returns results2, p2) →
      urls2 !! i = Some url →
      url1 ∈ urls1 →
      EmailScraper.extract_homepage urlsplit url = Returns homepage →
      EmailScraper.extract_homepage urlsplit url1 = Returns homepage →
      results2 !! i = Some None ∧
      EmailScraper.ALREADY_PROCESSED p1 ⊆ EmailScraper.ALREADY_PROCESSED p2).
Proof.
  intros (results1 & Hg1 & _)%scrape_emails_inv.
  destruct (gather_adds _ _ _ _ _ _ _ _ _ Hg1) as (Hsub & _ & Hall).
  split; [done|]. split; [|split].
  - intros url Hin.
    destruct (gather_characterised _ _ _ _ _ _ _ _ _ Hg1) as [_ HF].
    apply list_elem_of_lookup_1 in Hin as [i Hi].
    destruct (Forall2_lookup_l _ _ _ _ _ HF Hi) as (r & _ & Hexp).
    apply expected_returned in Hexp as (h & Hhome & _).
    exists h. split; [done|]. eapply Hall; [|done]. by eapply list_elem_of_lookup_2.
  - intros url homepage seen. apply advance_visit_seen.
  - intros urls2 schedule2 results2 p2 i url url1 homepage Hg2 Hi Hin Hhome Hhome1. split.
    + eapply gather_skips; [exact Hg2 | exact Hi | exact Hhome |]. by eapply Hall.
    + by destruct (gather_adds _ _ _ _ _ _ _ _ _ Hg2) as (? & _).
Qed.

Lemma C3_set_outlives_the_run_witness :
  "https://a.com" ∈ EmailScraper.ALREADY_PROCESSED after_first_run ∧
  EmailScraper.advance
    (EmailScraper.process_website Urllib.urlsplit Urllib.urljoin "https://a.com/y")
    (EmailScraper.ALREADY_PROCESSED after_first_run)
  = (EmailScraper.ALREADY_PROCESSED after_first_run, EmailScraper.Finished (Returns None)).
Proof.
  assert (EmailScraper.scrape_emails Urllib.urlsplit Urllib.urljoin unit small_web
            ["https://a.com/x"] single_schedule (EmailScraper.fresh tt)
          = Some (Returns
                    (EmailScraper.mkReport
                       [["Website"; "Email"]; ["https://a.com"; "bob@a.com"]] None),
                  after_first_run)) as Hrun by (vm_compute; reflexivity).
  destruct (C3_set_outlives_the_run Urllib.urlsplit Urllib.urljoin unit small_web
              ["https://a.com/x"] single_schedule (EmailScraper.fresh tt)
              after_first_run _ Hrun) as (_ & Hall & Hskip & _).
  assert ("https://a.com" ∈ EmailScraper.ALREADY_PROCESSED after_first_run) as Hin.
  { destruct (Hall "https://a.com/x") as (h & Hh & Hin); [by left|].
    vm_compute in Hh. by injection Hh as <-. }
  split; [exact Hin|].
  apply (Hskip "https://a.com/y" "https://a.com"); [vm_compute; reflexivity | exact Hin].
Defined.

(** The claim C3 as it was stated fails: a second run of [scrape_emails] in
    the same process does not start from an empty set, and the homepage of
    the first run is not processed again (no request is made, the task
    returns [None]). *)
Lemma C3_counterexample :
  EmailScraper.scrape_emails Urllib.urlsplit Urllib.urljoin unit small_web
    ["https://a.com/x"]
    single_schedule
    (EmailScraper.fresh tt)
  = Some (Returns
            (EmailScraper.mkReport
               [["Website"; "Email"]; ["https://a.com"; "bob@a.com"]] None),
          after_first_run) ∧
  EmailScraper.gather unit small_web
    (map (EmailScraper.process_website Urllib.urlsplit Urllib.urljoin) ["https://a.com/x"])
    [EmailScraper.Step] after_first_run
  = Some (Returns [None], after_first_run).
Proof. split; vm_compute; reflexivity. Qed.

(** * Further properties of the code *)

(** ** [find_email] in its context *)

Lemma contains_app_mid sub a m b :
  Str.contains sub m = true → Str.contains sub (a +:+ m +:+ b) = true.
Proof.
  intros (x & y & ->)%contains_spec. apply contains_spec.
  exists (a +:+ x), (y +:+ b). by rewrite !app_assoc.
Qed.

Lemma email_shape_has_at m : email_shape m → Str.contains "@" m = true.
Proof.
  intros (l & d & t & -> & _). apply contains_spec. by exists l, (d +:+ "." +:+ t).
Qed.

Lemma domain_char_local c :
  EmailScraper.domain_char c = true → EmailScraper.local_char c = true.
Proof.
  destruct c as [[] [] [] [] [] [] [] []]; vm_compute; congruence.
Qed.

Lemma alpha_local c : Re.alpha c = true → EmailScraper.local_char c = true.
Proof. unfold EmailScraper.local_char. by intros ->. Qed.

Lemma all_weaken (P Q : ascii → bool) s :
  (∀ c, P c = true → Q c = true) → Str.all P s = true → Str.all Q s = true.
Proof.
  intros HPQ. induction s as [|c s IH]; [done|]. simpl.
  intros [Hc Hs]%andb_true_iff. by rewrite (HPQ _ Hc), IH.
Qed.

Lemma email_shape_chars m : email_shape m → Str.all email_char m = true.
Proof.
  intros (l & d & t & -> & _ & Hl & _ & Hd & _ & Ht).
  assert (∀ c, EmailScraper.local_char c = true → email_char c = true) as Hlocal.
  { intros c Hc. unfold email_char. by rewrite Hc. }
  rewrite !all_app. rewrite (all_weaken _ _ l Hlocal Hl).
  rewrite (all_weaken _ _ d (λ c H, Hlocal c (domain_char_local c H)) Hd).
  rewrite (all_weaken _ _ t (λ c H, Hlocal c (alpha_local c H)) Ht). done.
Qed.

(** where an occurrence of [m] lies with respect to one character of the
    text: to its left, over it, or to its right *)
Lemma occurrence_split x c y before m after :
  x +:+ String c y = before +:+ m +:+ after →
  (∃ r, x = before +:+ m +:+ r) ∨
  (∃ m1 m2, m = m1 +:+ String c m2) ∨
  (∃ b', before = x +:+ String c b' ∧ y = b' +:+ m +:+ after).
Proof.
  intros Heq.
  destruct (Nat.le_gt_cases (String.length before) (String.length x)) as [Hle|Hgt].
  - destruct (app_eq_split _ _ _ _ (eq_sym Heq) Hle) as (z & -> & Hz).
    destruct (Nat.le_gt_cases (String.length m) (String.length z)) as [Hle'|Hgt'].
    + destruct (app_eq_split _ _ _ _ Hz Hle') as (r & -> & _). left. by exists r.
    + destruct (app_eq_split _ _ _ _ (eq_sym Hz)) as (w & -> & Hw); [lia|].
      rewrite length_app in Hgt'. destruct w as [|c' w]; [simpl in Hgt'; lia|].
      rewrite app_cons in Hw. injection Hw as -> _. right. left. by exists z, w.
  - destruct (app_eq_split _ _ _ _ Heq) as (z & -> & Hz); [lia|].
    rewrite length_app in Hgt. destruct z as [|c' z]; [simpl in Hgt; lia|].
    rewrite app_cons in Hz. injection Hz as -> ->. right. right. by exists z.
Qed.

Lemma all_has_not (P : ascii → bool) m1 c m2 :
  P c = false → Str.all P (m1 +:+ String c m2) = false.
Proof. intros Hc. rewrite all_app. simpl. by rewrite Hc, andb_false_r. Qed.

Lemma find_email_first content e :
  EmailScraper.find_email content = Some e →
  first_email content e ∧ image_suffixed e = false.
Proof.
  rewrite find_email_search.
  destruct (Re.search _ content) as [g|] eqn:Hs; [|done].
  destruct (image_suffixed (Str.join g)) eqn:Himg; [done|]. intros [= <-].
  split; [by apply search_first_email | done].
Qed.

Lemma first_email_find content e :
  first_email content e → image_suffixed e = false →
  EmailScraper.find_email content = Some e.
Proof.
  intros (g & Hs & <-)%first_email_search Himg.
  by rewrite find_email_search, Hs, Himg.
Qed.

(** X1.  A text without [@] has no address: [find_email] returns [None]. *)
Theorem X1_find_email_needs_at (content : string) :
  Str.contains "@" content = false → EmailScraper.find_email content = None.
Proof.
  intros Hat. destruct (EmailScraper.find_email content) as [e|] eqn:He; [|done].
  destruct (find_email_first _ _ He) as [(b & a & -> & Hshape & _) _].
  apply email_shape_has_at in Hshape.
  by rewrite (contains_app_mid "@" b e a Hshape) in Hat.
Qed.

Lemma X1_find_email_needs_at_witness :
  EmailScraper.find_email "call us: 555-0100 (at) example.com" = None.
Proof. apply X1_find_email_needs_at. vm_compute. reflexivity. Defined.

(** X2.  What [find_email] returns is an address in its own right: given
    back to [find_email], it is returned unchanged. *)
Theorem X2_find_email_fixed_point (content e : string) :
  EmailScraper.find_email content = Some e → EmailScraper.find_email e = Some e.
Proof.
  intros [(b & a & _ & Hshape & _) Himg]%find_email_first.
  apply first_email_find; [|done].
  exists "", "". rewrite app_nil_l, app_nil_r. repeat split; [done| |].
  - intros **. simpl. lia.
  - intros m' after' Heq _. rewrite Heq, length_app. lia.
Qed.

Lemma X2_find_email_fixed_point_witness :
  EmailScraper.find_email "john.doe@example.co.uk" = Some "john.doe@example.co.uk".
Proof.
  apply (X2_find_email_fixed_point "write to john.doe@example.co.uk, or to x@y.org").
  vm_compute. reflexivity.
Defined.

(** X3.  Markup around a text does not change the address found in it: when
    [find_email] finds [e] in [content], it finds [e] in [content] put
    between two characters that cannot stand in an address (a space, an
    angle bracket, a quote), after any lead-in that has no [@] and before
    any text at all. *)
Theorem X3_find_email_in_context (lead content rest e : string) (c1 c0 : ascii) :
  EmailScraper.find_email content = Some e →
  Str.contains "@" lead = false →
  email_char c1 = false → email_char c0 = false →
  EmailScraper.find_email (lead +:+ String c1 (content +:+ String c0 rest)) = Some e.
Proof.
  intros [(b & a & -> & Hshape & Hleft & Hlong) Himg]%find_email_first Hlead Hc1 Hc0.
  apply first_email_find; [|done].
  exists (lead +:+ String c1 b), (a +:+ String c0 rest).
  split; [by rewrite ?app_assoc, (app_cons c1 b), ?app_assoc|]. split; [done|]. split.
  - intros before' m' after' Heq Hshape'.
    pose proof (email_shape_chars _ Hshape') as Hchars.
    destruct (occurrence_split _ _ _ _ _ _ Heq)
      as [[r ->]|[(m1 & m2 & ->)|(b' & -> & Heq')]].
    + apply email_shape_has_at in Hshape'.
      by rewrite (contains_app_mid "@" before' m' r Hshape') in Hlead.
    + by rewrite (all_has_not _ _ _ _ Hc1) in Hchars.
    + rewrite !length_app. simpl.
      destruct (occurrence_split _ _ _ _ _ _ Heq')
        as [[r Hr]|[(m1 & m2 & ->)|(b'' & -> & _)]].
      * pose proof (Hleft _ _ _ Hr Hshape'). lia.
      * by rewrite (all_has_not _ _ _ _ Hc0) in Hchars.
      * rewrite !length_app. simpl. lia.
  - intros m' after' Heq Hshape'.
    pose proof (email_shape_chars _ Hshape') as Hchars.
    rewrite <- app_assoc in Heq.
    destruct (occurrence_split _ c0 rest "" m' after' Heq)
      as [[r Hr]|[(m1 & m2 & ->)|(b' & Hb & _)]].
    + rewrite app_nil_l in Hr. by apply (Hlong _ _ Hr).
    + by rewrite (all_has_not _ _ _ _ Hc0) in Hchars.
    + destruct (e +:+ a); by rewrite ?app_cons in Hb.
Qed.

Lemma X3_find_email_in_context_witness :
  EmailScraper.find_email
    ("<p class=a>Sales:" +:+ String " " ("bob@a.com" +:+ String "<" "/p> or c@d.org"))
  = Some "bob@a.com".
Proof.
  apply X3_find_email_in_context; vm_compute; reflexivity.
Defined.

(** ** [find_contact_urls] and the href values *)

Lemma finditer_sound p skip s g :
  g ∈ Re.finditer p skip s →
  ∃ before rest, s = before +:+ rest ∧ Re.match_here p rest = Some g.
Proof.
  revert skip. induction s as [|c s IH]; intros skip; cbn [Re.finditer].
  - destruct skip; [|by intros ?%elem_of_nil].
    destruct (Re.match_here p "") as [g0|] eqn:Hm; [|by intros ?%elem_of_nil].
    intros ->%list_elem_of_singleton. by exists "", "".
  - assert (g ∈ Re.finditer p 0 s ∨ (∃ k, g ∈ Re.finditer p k s) →
            ∃ before rest, String c s = before +:+ rest ∧ Re.match_here p rest = Some g)
      as Hnext.
    { intros [Hin|[k Hin]]; apply IH in Hin as (before & rest & -> & Hm);
        by exists (String c before), rest. }
    destruct skip as [|k]; [|intros Hin; apply Hnext; eauto].
    destruct (Re.match_here p (String c s)) as [g0|] eqn:Hm; [|by auto].
    intros [->|Hin]%elem_of_cons; [by exists "", (String c s) | apply Hnext; eauto].
Qed.

Lemma all_not_contains (a : ascii) s :
  Str.all (λ c, negb (Re.lit a c)) s = true → Str.contains (String a "") s = false.
Proof.
  induction s as [|c s IH]; [done|]. cbn [Str.all Str.contains Str.startswith].
  intros [Hc Hs]%andb_true_iff. rewrite IH by done. unfold Re.lit in Hc.
  apply negb_true_iff in Hc. by rewrite Hc.
Qed.

Lemma href_match s g :
  Re.match_here EmailScraper.href_pattern s = Some g →
  ∃ value rest,
    nth 6 g "" = value ∧ s = "href=" +:+ quoted value +:+ rest ∧
    Str.contains (String dquote "") value = false.
Proof.
  intros [HF [rest ->]]%match_here_sound. unfold EmailScraper.href_pattern in HF.
  cbn [Re.literal app] in HF.
  repeat match goal with
         | H : Forall2 _ (_ :: _) _ |- _ =>
             apply Forall2_cons_inv_l in H as (? & ? & ? & H & ->)
         | H : Forall2 _ [] _ |- _ => apply Forall2_nil_inv_l in H as ->
         end.
  repeat match goal with
         | H : piece_ok (Re.One _) _ |- _ =>
             destruct H as (? & -> & <-%Ascii.eqb_eq)
         | H : piece_ok (Re.Many _ _) _ |- _ => destruct H as [H _]
         end.
  eexists _, rest. split; [reflexivity|]. split.
  - unfold quoted. cbn [Str.join nth]. rewrite !app_assoc. reflexivity.
  - by apply all_not_contains.
Qed.

Lemma hrefs_sound content value :
  value ∈ EmailScraper.hrefs content →
  Str.contains (String dquote "") value = false ∧
  ∃ before rest, content = before +:+ ("href=" +:+ quoted value) +:+ rest.
Proof.
  unfold EmailScraper.hrefs, Re.findall.
  intros (g & -> & Hin)%list_elem_of_fmap.
  destruct (finditer_sound _ _ _ _ Hin) as (before & rest & -> & Hm).
  destruct (href_match _ _ Hm) as (value & rest' & <- & -> & Hq).
  split; [done|]. exists before, rest'. by rewrite !app_assoc.
Qed.

(** X4.  Every href value that [find_contact_urls] looks at stands in the
    page between [href=], a double quote and the next double quote: it
    contains no double quote itself. *)
Theorem X4_href_values_are_quoted (content value : string) :
  value ∈ EmailScraper.hrefs content →
  Str.contains (String dquote "") value = false ∧
  Str.contains ("href=" +:+ quoted value) content = true.
Proof.
  intros [Hq (before & rest & ->)]%hrefs_sound. split; [done|].
  apply contains_spec. by exists before, rest.
Qed.

Lemma X4_href_values_are_quoted_witness :
  Str.contains ("href=" +:+ quoted "/about")
    ("<p>" +:+ anchor "/about" +:+ anchor "/blog") = true.
Proof.
  refine (proj2 (X4_href_values_are_quoted
                   ("<p>" +:+ anchor "/about" +:+ anchor "/blog") "/about" _)).
  vm_compute. by left.
Defined.

Lemma scan_hrefs_length urljoin base acc urls links :
  EmailScraper.scan_hrefs urljoin base acc urls = Returns links →
  (length links ≤ length acc + length urls)%nat.
Proof.
  revert acc. induction urls as [|url urls IH]; intros acc; cbn [EmailScraper.scan_hrefs].
  - intros [= <-]. simpl. lia.
  - destruct (Str.contains "mailto:" url).
    + destruct (Str.truthy _); [intros [= <-]; simpl; lia|].
      intros H%IH. simpl. lia.
    + destruct (existsb _ _); [|intros H%IH; simpl; lia].
      destruct (if negb (Str.contains "http" url) then urljoin base url else mret url)
        as [link|e]; [|done].
      cbn [mbind result_mbind result_bind]. intros H%IH.
      rewrite List.length_app in H. simpl in *. lia.
Qed.

(** X5.  When [find_contact_urls] returns, it returns at most one entry per
    href value of the page; and for a page without the text [href=] it
    returns the empty list (it calls nothing that could raise). *)
Theorem X5_contact_urls_bounded (urljoin : string → string → result string)
    (base content : string) :
  (∀ links,
      EmailScraper.find_contact_urls urljoin base content = Returns links →
      (length links ≤ length (EmailScraper.hrefs content))%nat) ∧
  (Str.contains "href=" content = false →
   EmailScraper.find_contact_urls urljoin base content = Returns []).
Proof.
  split.
  - intros links H. unfold EmailScraper.find_contact_urls in H.
    by apply scan_hrefs_length in H.
  - intros Hno. unfold EmailScraper.find_contact_urls.
    destruct (EmailScraper.hrefs content) as [|value values] eqn:Hh; [done|].
    assert (value ∈ EmailScraper.hrefs content) as Hin by (rewrite Hh; by left).
    apply hrefs_sound in Hin as [_ (a & b & ->)].
    assert (Str.contains "href=" (a +:+ ("href=" +:+ quoted value) +:+ b) = true) as Hc.
    { apply contains_spec. exists a, (quoted value +:+ b). by rewrite !app_assoc. }
    congruence.
Qed.

Lemma X5_contact_urls_bounded_witness :
  EmailScraper.find_contact_urls Urllib.urljoin "https://x.com"
    "<p>contact: see the about page</p>" = Returns [].
Proof.
  apply (proj2 (X5_contact_urls_bounded Urllib.urljoin "https://x.com"
                  "<p>contact: see the about page</p>")).
  vm_compute. reflexivity.
Defined.

(** ** One call of [process_website] *)

Lemma returns_bind_with {A B} (Q' : A → Prop) (Q : B → Prop) (f : A → coro B) c :
  returns Q' c → (∀ a, Q' a → returns Q (f a)) → returns Q (coro_bind f c).
Proof. intros Hc Hf. induction c; simpl in *; eauto. Qed.

Lemma find_email_has_at content e :
  EmailScraper.find_email content = Some e → Str.contains "@" e = true.
Proof.
  intros [(_ & _ & _ & Hshape & _) _]%find_email_first. by apply email_shape_has_at.
Qed.

Lemma follow_contacts_returns email contact_urls :
  (∀ e, email = Some e → Str.contains "@" e = true) →
  returns (λ email, ∀ e, email = Some e → Str.contains "@" e = true)
    (EmailScraper.follow_contacts email contact_urls).
Proof.
  revert email. induction contact_urls as [|c cs IH]; intros email Hemail; [done|].
  cbn [EmailScraper.follow_contacts].
  destruct (Str.contains "@" c) eqn:Hat; [by intros e [= <-]|].
  apply returns_bind. intros content.
  destruct (negb (Str.truthy content)); [by apply IH|].
  destruct (Str.truthy (EmailScraper.find_email _)) eqn:Ht.
  - simpl. intros e He. by eapply find_email_has_at.
  - apply IH. intros e He. by eapply find_email_has_at.
Qed.

Section Visits.

Import EmailScraper.

Variable urlsplit : string → result Urllib.SplitResult.
Variable urljoin : string → string → result string.
Variable World : Type.
Variable session_get : string → World → outcome * World.

Local Abbreviation run := (await World session_get).
Local Abbreviation visit := (process_website urlsplit urljoin).
Local Abbreviation home := (extract_homepage urlsplit).

Lemma await_returns {A} (Q : A → Prop) (c : coro A) p : returns Q c → Q (run c p).1.
Proof.
  revert p. induction c as [a|h k IH|h k IH|url k IH]; intros p; simpl.
  - done.
  - intros H. apply IH, H.
  - apply IH.
  - intros H. destruct (session_get url (network p)) as [o w]. apply IH, H.
Qed.

Lemma visit_returns url :
  returns (if_returned (site_result_ok urlsplit url)) (visit url).
Proof.
  unfold process_website. destruct (extract_homepage urlsplit url) as [h|e] eqn:Hhome;
    [|done].
  simpl. intros [|]; simpl; [done|].
  intros response. apply (returns_bind (A := option string)). intros content. simpl.
  destruct (negb (Str.truthy content)); [by split|].
  destruct (negb (Str.truthy (find_email _))) eqn:Ht.
  - destruct (find_contact_urls _ _ _) as [contact_urls|e]; [|done].
    eapply (returns_bind_with (A := option string)).
    + apply follow_contacts_returns. intros e He. by eapply find_email_has_at.
    + intros email Hemail. by split.
  - split; [done|]. intros e He. by eapply find_email_has_at.
Qed.

Lemma await_visit_seen url h p :
  home url = Returns h → h ∈ ALREADY_PROCESSED p → run (visit url) p = (Returns None, p).
Proof.
  intros Hhome Hin. unfold process_website. rewrite Hhome. simpl.
  by rewrite bool_decide_eq_true_2.
Qed.

(** X6.  [process_website] returns [None] exactly for a URL whose homepage
    is already in [ALREADY_PROCESSED]; it then makes no request and leaves
    the set as it is. *)
Theorem X6_visit_none_iff_seen (url : string) (p : process World) :
  ((run (visit url) p).1 = Returns None ↔
   ∃ h, home url = Returns h ∧ h ∈ ALREADY_PROCESSED p) ∧
  (∀ h, home url = Returns h → h ∈ ALREADY_PROCESSED p →
        run (visit url) p = (Returns None, p)).
Proof.
  split; [|intros h; apply await_visit_seen]. split.
  - intros Hnone. destruct (extract_homepage urlsplit url) as [h|e] eqn:Hhome.
    + exists h. split; [done|].
      destruct (decide (h ∈ ALREADY_PROCESSED p)) as [|Hnew]; [done|].
      rewrite (await_visit _ _ _ _ _ _ _ Hhome) in Hnone by done. cbv zeta in Hnone.
      repeat case_match; by simplify_eq/=.
    + by rewrite (await_visit_rejected _ _ _ _ _ _ _ Hhome) in Hnone.
  - intros (h & Hhome & Hin). by rewrite (await_visit_seen _ _ _ Hhome).
Qed.

(** the set and the requests after a call for a homepage that is new *)
Lemma await_visit_effects url h p :
  home url = Returns h →
  h ∉ ALREADY_PROCESSED p →
  ALREADY_PROCESSED (run (visit url) p).2 = {[h]} ∪ ALREADY_PROCESSED p ∧
  ∃ followed,
    requests (run (visit url) p).2 = (requests p ++ h :: followed)%list ∧
    match find_contact_urls urljoin h
            (default "" (fetched_text (session_get h (network p)).1)) with
    | Returns contact_urls => followed `prefix_of` contact_urls
    | Raises _ => followed = []
    end.
Proof.
  intros Hhome Hnew. rewrite (await_visit _ _ _ _ _ _ _ Hhome) by done.
  rewrite await_fetch. cbn [fst snd].
  cbn [ALREADY_PROCESSED network requests].
  set (content := fetched_text _).
  assert (match find_contact_urls urljoin h (default "" content) with
          | Returns contact_urls => [] `prefix_of` contact_urls
          | Raises _ => [] = ([] : list string)
          end) as Hnil.
  { destruct (find_contact_urls _ _ _); [apply prefix_nil | done]. }
  destruct (negb (Str.truthy content)).
  { split; [done|]. exists []. simpl. by split. }
  destruct (negb (Str.truthy (find_email _))) eqn:Ht.
  - apply negb_true_iff, find_email_falsy in Ht. rewrite Ht.
    destruct (find_contact_urls urljoin h (default "" content)) as [contact_urls|e].
    + set (p2 := mkProcess _ _ _).
      destruct (follow_requests World session_get contact_urls p2)
        as (tried & Hpre & Hreq & Hap & _).
      destruct (await _ _ (follow_contacts _ _) p2) as [email p3]. simpl in *.
      split; [done|]. exists tried. split; [|done].
      rewrite Hreq. by rewrite <- List.app_assoc.
    + split; [done|]. exists []. by split.
  - split; [done|]. exists []. simpl. by split.
Qed.

(** X7.  A call of [process_website] for a URL that [urlsplit] rejects
    raises at once: nothing is added and nothing requested.  A call for a
    homepage that is not in the set adds exactly that homepage to it, and
    follows links one level deep only: it requests the homepage and then
    some first few of the contact links found on the homepage, in their
    order, and nothing else; when [find_contact_urls] raises, the homepage
    is the only request. *)
Theorem X7_visit_effects (url : string) (p : process World) :
  (∀ e, home url = Raises e → run (visit url) p = (Raises e, p)) ∧
  (∀ h,
      home url = Returns h →
      h ∉ ALREADY_PROCESSED p →
      ALREADY_PROCESSED (run (visit url) p).2 = {[h]} ∪ ALREADY_PROCESSED p ∧
      ∃ followed,
        requests (run (visit url) p).2 = (requests p ++ h :: followed)%list ∧
        match find_contact_urls urljoin h
                (default "" (fetched_text (session_get h (network p)).1)) with
        | Returns contact_urls => followed `prefix_of` contact_urls
        | Raises _ => followed = []
        end).
Proof.
  split.
  - intros e. apply await_visit_rejected.
  - intros h. apply await_visit_effects.
Qed.

(** X8.  Called one after the other, two calls of [process_website] for URLs
    of one homepage do what the set is for: the second returns [None] and
    requests nothing, whatever the first one found. *)
Theorem X8_second_visit_is_skipped (u1 u2 h : string) (p : process World) :
  home u1 = Returns h → home u2 = Returns h →
  run (visit u2) (run (visit u1) p).2 = (Returns None, (run (visit u1) p).2).
Proof.
  intros Hh1 Hh2. apply (await_visit_seen _ _ _ Hh2).
  destruct (decide (h ∈ ALREADY_PROCESSED p)) as [Hin|Hnew].
  - by rewrite (await_visit_seen _ _ _ Hh1).
  - destruct (await_visit_effects u1 h p Hh1 Hnew) as [-> _]. set_solver.
Qed.

(** X9.  A result of [process_website] names the homepage of the URL it was
    called for, and an email in it contains [@]: it is never the empty
    string, so the report has a row for every result with an email. *)
Theorem X9_visit_result_shape (url homepage : string) (email : option string)
    (p : process World) :
  (run (visit url) p).1 = Returns (Some (homepage, email)) →
  home url = Returns homepage ∧
  ∀ e, email = Some e → Str.contains "@" e = true ∧ Str.truthy email = true.
Proof.
  intros Hr. pose proof (await_returns _ _ p (visit_returns url)) as Hok.
  rewrite Hr in Hok. destruct Hok as [Hhome Hat]. split; [done|].
  intros e ->. split; [by apply Hat|].
  specialize (Hat e eq_refl). by destruct e.
Qed.

End Visits.

Lemma X6_visit_none_iff_seen_witness :
  EmailScraper.await unit small_web
    (EmailScraper.process_website Urllib.urlsplit Urllib.urljoin "https://a.com/y")
    after_first_run
  = (Returns None, after_first_run).
Proof.
  apply (proj2 (X6_visit_none_iff_seen Urllib.urlsplit Urllib.urljoin unit small_web
                  "https://a.com/y" after_first_run) "https://a.com").
  - vm_compute. reflexivity.
  - vm_compute. reflexivity.
Defined.

Lemma X7_visit_effects_witness :
  let after :=
    (EmailScraper.await unit garbled_web
       (EmailScraper.process_website Urllib.urlsplit Urllib.urljoin "https://b.org/x")
       (EmailScraper.fresh tt)).2 in
  EmailScraper.ALREADY_PROCESSED after = {["https://b.org"]} ∪ ∅ ∧
  ∃ followed, EmailScraper.requests after = "https://b.org" :: followed ∧ followed = [].
Proof.
  exact (proj2 (X7_visit_effects Urllib.urlsplit Urllib.urljoin unit garbled_web
                  "https://b.org/x" (EmailScraper.fresh tt))
           "https://b.org" eq_refl (not_elem_of_empty _)).
Defined.

Lemma X8_second_visit_is_skipped_witness :
  EmailScraper.await unit small_web
    (EmailScraper.process_website Urllib.urlsplit Urllib.urljoin "https://a.com/y")
    (EmailScraper.await unit small_web
       (EmailScraper.process_website Urllib.urlsplit Urllib.urljoin "https://a.com/x")
       (EmailScraper.fresh tt)).2
  = (Returns None,
     (EmailScraper.await unit small_web
        (EmailScraper.process_website Urllib.urlsplit Urllib.urljoin "https://a.com/x")
        (EmailScraper.fresh tt)).2).
Proof.
  apply (X8_second_visit_is_skipped Urllib.urlsplit Urllib.urljoin unit small_web
           "https://a.com/x" "https://a.com/y" "https://a.com" (EmailScraper.fresh tt)).
  - vm_compute. reflexivity.
  - vm_compute. reflexivity.
Defined.

Lemma X9_visit_result_shape_witness :
  EmailScraper.extract_homepage Urllib.urlsplit "https://a.com/x" = Returns "https://a.com" ∧
  ∀ e, Some "bob@a.com" = Some e →
       Str.contains "@" e = true ∧ Str.truthy (Some "bob@a.com") = true.
Proof.
  apply (X9_visit_result_shape Urllib.urlsplit Urllib.urljoin unit small_web
           "https://a.com/x" "https://a.com" (Some "bob@a.com") (EmailScraper.fresh tt)).
  vm_compute. reflexivity.
Defined.

(** ** The report and the results of a batch run *)

Lemma write_rows_all_some results :
  Forall is_Some results →
  EmailScraper.write_rows results
  = EmailScraper.mkReport (flat_map row_of results) None.
Proof.
  induction 1 as [|r results [[url email] ->] _ IH]; [done|].
  cbn [EmailScraper.write_rows flat_map row_of]. by rewrite IH.
Qed.

Lemma write_rows_first_none good rest :
  Forall is_Some good →
  EmailScraper.write_rows (good ++ None :: rest)
  = EmailScraper.mkReport (flat_map row_of good) (Some TypeError).
Proof.
  induction 1 as [|r results [[url email] ->] _ IH]; [done|].
  cbn [EmailScraper.write_rows flat_map row_of app]. by rewrite IH.
Qed.

(** X10.  The loop that writes the report writes a row for every result
    with a non-empty email, in order, as long as the results are pairs; at
    the first result that is [None] it raises [TypeError], and the rows of
    the results after it are never written. *)
Theorem X10_write_rows (results : list (option (string * option string))) :
  (Forall is_Some results →
   EmailScraper.write_rows results
   = EmailScraper.mkReport (flat_map row_of results) None) ∧
  (∀ good rest,
      results = (good ++ None :: rest)%list → Forall is_Some good →
      EmailScraper.write_rows results
      = EmailScraper.mkReport (flat_map row_of good) (Some TypeError)).
Proof.
  split; [apply write_rows_all_some|]. intros good rest -> Hgood.
  by apply write_rows_first_none.
Qed.

Lemma X10_write_rows_witness :
  EmailScraper.write_rows
    [Some ("https://a.com", Some "bob@a.com"); Some ("https://b.org", None);
     None; Some ("https://c.net", Some "c@c.net")]
  = EmailScraper.mkReport [["https://a.com"; "bob@a.com"]] (Some TypeError).
Proof.
  refine (proj2 (X10_write_rows _)
            [Some ("https://a.com", Some "bob@a.com"); Some ("https://b.org", None)]
            [Some ("https://c.net", Some "c@c.net")] eq_refl _).
  repeat constructor; by eexists.
Defined.

Lemma write_rows_rows results row :
  row ∈ EmailScraper.rows (EmailScraper.write_rows results) →
  ∃ r, r ∈ results ∧ row ∈ row_of r.
Proof.
  induction results as [|[[url email]|] results IH]; simpl.
  - by intros ?%elem_of_nil.
  - intros [Hin|Hin]%elem_of_app.
    + exists (Some (url, email)). split; [by left | done].
    + destruct (IH Hin) as (r & Hr & Hrow). exists r. split; [by right | done].
  - by intros ?%elem_of_nil.
Qed.

Section BatchResults.

Import EmailScraper.

Variable urlsplit : string → result Urllib.SplitResult.
Variable urljoin : string → string → result string.
Variable World : Type.
Variable session_get : string → World → outcome * World.

Local Abbreviation visit := (process_website urlsplit urljoin).
Local Abbreviation home := (extract_homepage urlsplit).
Local Abbreviation exec := (loop_run World session_get).

Lemma gather_results_ok urls schedule p results p' :
  gather World session_get (map visit urls) schedule p = Some (Returns results, p') →
  Forall2 (site_result_ok urlsplit) urls results.
Proof.
  intros (l & Hrun & _ & HF & _)%gather_inv. rewrite length_map in HF.
  apply Forall2_same_length_lookup. split.
  { apply Forall2_length in HF. by rewrite length_seq in HF. }
  intros i url r Hurl Hr.
  destruct (Forall2_lookup_r _ _ _ _ _ HF Hr) as (idx & Hidx & Hfin).
  apply lookup_seq in Hidx as [-> _]. simpl in Hfin.
  assert (task_holds i
            (λ _ c, returns (if_returned (site_result_ok urlsplit url)) c)
            (λ _ x, ∀ o, returns (if_returned (site_result_ok urlsplit url)) (x.2 o))
            (λ _ r, if_returned (site_result_ok urlsplit url) r) l) as (_ & _ & Hd).
  { eapply (task_inv_exec World session_get); [..|exact Hrun|]; try done.
    - intros seen c seen' a Hc Hadv.
      pose proof (advance_returns _ c seen Hc) as H. by rewrite Hadv in H.
    - intros seen c seen' u k Hc Hadv.
      pose proof (advance_returns _ c seen Hc) as H. by rewrite Hadv in H.
    - unfold task_holds. simpl. split; [|split].
      + intros c Hc%initial_ready. rewrite list_lookup_fmap, Hurl in Hc.
        injection Hc as <-. apply visit_returns.
      + intros x Hx. by apply elem_of_nil in Hx.
      + intros r'. by rewrite lookup_empty. }
  by apply Hd in Hfin.
Qed.

(** X11.  A batch run returns one result for every URL, in the order of the
    URLs and not in the order in which the sites answered: the result at
    position [i] is [None] or names the homepage of the URL at position [i],
    and an email in it contains [@]. *)
Theorem X11_results_follow_urls (urls : list string) (schedule : list event)
    (p p' : process World) (results : list (option (string * option string))) :
  gather World session_get (map visit urls) schedule p = Some (Returns results, p') →
  length results = length urls ∧
  ∀ i url r, urls !! i = Some url → results !! i = Some r →
             site_result_ok urlsplit url r.
Proof.
  intros HF%gather_results_ok. split; [symmetry; by eapply Forall2_length|].
  intros i url r Hurl Hr. by eapply Forall2_lookup_lr.
Qed.

(** X12.  The report starts with the header row, and every other row holds
    the homepage of one of the URLs of the run and an email that contains
    [@]. *)
Theorem X12_report_rows (urls : list string) (schedule : list event)
    (p p' : process World) (rep : report) :
  scrape_emails urlsplit urljoin World session_get urls schedule p
  = Some (Returns rep, p') →
  ∃ data,
    rows rep = ["Website"; "Email"] :: data ∧
    ∀ row, row ∈ data →
           ∃ url h e,
             url ∈ urls ∧ home url = Returns h ∧ row = [h; e] ∧
             Str.contains "@" e = true.
Proof.
  intros (results & Hg & ->)%scrape_emails_inv. eexists. split; [done|].
  intros row (r & Hr & Hrow)%write_rows_rows.
  apply list_elem_of_lookup_1 in Hr as [i Hi].
  pose proof (gather_results_ok _ _ _ _ _ Hg) as HF.
  destruct (Forall2_lookup_r _ _ _ _ _ HF Hi) as (url & Hurl & Hok).
  destruct r as [[h [e|]]|]; simpl in Hrow; try by apply elem_of_nil in Hrow.
  destruct Hok as [Hhome Hat]. specialize (Hat e eq_refl).
  destruct e as [|c e]; [done|]. apply list_elem_of_singleton in Hrow as ->.
  exists url, h, (String c e). split; [by eapply list_elem_of_lookup_2 | done].
Qed.

(** X13.  A URL that [urlsplit] rejects aborts the batch run: whatever the
    schedule, [scrape_emails] raises and writes no report.  Given that URL
    alone, it raises the exception of [urlsplit] as soon as the task runs,
    with no request made and the set unchanged. *)
Theorem X13_rejected_url_aborts_run (urls : list string) (i : nat) (url : string)
    (e : exn) (p : process World) :
  urls !! i = Some url →
  home url = Raises e →
  (∀ schedule outcome p',
      scrape_emails urlsplit urljoin World session_get urls schedule p
      = Some (outcome, p') →
      ∃ e', outcome = Raises e') ∧
  scrape_emails urlsplit urljoin World session_get [url] [Step] p = Some (Raises e, p).
Proof.
  intros Hi Hhome. split.
  - intros schedule [rep|e'] p' Hrun; [|by eexists].
    apply scrape_emails_inv in Hrun as (results & Hg & _).
    destruct (gather_characterised _ _ _ _ _ _ _ _ _ Hg) as [_ HF].
    destruct (Forall2_lookup_l _ _ _ _ _ HF Hi) as (r & _ & Hexp).
    apply expected_returned in Hexp as (h & Hh & _). congruence.
  - unfold scrape_emails, gather. cbn [map length imap gather_loop].
    unfold raised_task at 1. cbn [seq omap list_omap head finished].
    rewrite lookup_empty. cbn [loop_step ready proc].
    rewrite (advance_visit_rejected urlsplit urljoin _ _ _ Hhome).
    unfold raised_task. cbn [seq omap list_omap head finished]. rewrite lookup_insert_eq.
    cbn [loop_run proc]. by destruct p.
Qed.

End BatchResults.

(** ** What a batch run adds to the set *)

Lemma adds_within_bind {A B} allowed (f : A → coro B) c :
  adds_within allowed c → (∀ a, adds_within allowed (f a)) →
  adds_within allowed (coro_bind f c).
Proof. intros Hc Hf. induction c; simpl in *; intuition eauto. Qed.

Lemma follow_contacts_within allowed email contact_urls :
  adds_within allowed (EmailScraper.follow_contacts email contact_urls).
Proof.
  revert email. induction contact_urls as [|c cs IH]; intros email; [done|].
  cbn [EmailScraper.follow_contacts]. destruct (Str.contains "@" c); [done|].
  simpl. intros response. apply (adds_within_bind (A := option string)).
  - by destruct response as [status [text|e]|e]; [destruct (status =? 200)%Z..|].
  - intros content. destruct (negb (Str.truthy content)); [apply IH|].
    destruct (Str.truthy _); [done | apply IH].
Qed.

Lemma advance_within {A} allowed (c : coro A) seen :
  adds_within allowed c → seen ⊆ allowed →
  (EmailScraper.advance c seen).1 ⊆ allowed ∧
  match (EmailScraper.advance c seen).2 with
  | EmailScraper.Finished _ => True
  | EmailScraper.Suspended _ k => ∀ o, adds_within allowed (k o)
  end.
Proof.
  revert seen. induction c as [a|h k IH|h k IH|url k IH]; intros seen; simpl.
  - done.
  - intros H. by apply IH.
  - intros [Hh Hk] Hsub. apply IH; [done|].
    apply union_subseteq. split; [by apply singleton_subseteq_l | done].
  - done.
Qed.

Section BatchSet.

Import EmailScraper.

Variable urlsplit : string → result Urllib.SplitResult.
Variable urljoin : string → string → result string.
Variable World : Type.
Variable session_get : string → World → outcome * World.

Local Abbreviation visit := (process_website urlsplit urljoin).
Local Abbreviation home := (extract_homepage urlsplit).
Local Abbreviation exec := (loop_run World session_get).

Lemma visit_within allowed url :
  (∀ h, home url = Returns h → h ∈ allowed) → adds_within allowed (visit url).
Proof.
  intros Hin. unfold process_website.
  destruct (extract_homepage urlsplit url) as [h|e]; [|done].
  specialize (Hin h eq_refl). simpl. intros [|]; simpl; [done|].
  intros response. apply (adds_within_bind (A := option string)).
  - by destruct response as [status [text|e]|e]; [destruct (status =? 200)%Z..|].
  - intros content. simpl. split; [done|].
    destruct (negb (Str.truthy content)); [done|].
    destruct (negb (Str.truthy _)); [|done].
    destruct (find_contact_urls _ _ _); [|done].
    apply (adds_within_bind (A := option string)); [apply follow_contacts_within | done].
Qed.

Lemma confined_step {A} allowed e (l l' : loop World A) :
  loop_step World session_get e l = Some l' → confined allowed l → confined allowed l'.
Proof.
  intros Hstep (Hsub & Hr & Hw). destruct e as [|j]; simpl in Hstep.
  - destruct (ready l) as [|[i c] rest] eqn:Hready; [done|].
    destruct (advance_within allowed c (ALREADY_PROCESSED (proc l))) as [Hsub' Hk];
      [eapply Hr; by left | done |].
    destruct (advance c _) as [seen [a|url k]]; injection Hstep as <-;
      (split; [done|]); simpl in *.
    + split; [intros ???; eapply Hr; by right | done].
    + split; [intros ???; eapply Hr; by right|].
      intros i' x [Hin|Hin%list_elem_of_singleton]%elem_of_app; [by eapply Hw|].
      by injection Hin as -> ->.
  - destruct (waiting l !! j) as [[i [url k]]|] eqn:Hj; [|done].
    destruct (session_get url _) as [o w]. injection Hstep as <-.
    split; [done|]. simpl. split.
    + intros i' c [Hin|Hin%list_elem_of_singleton]%elem_of_app; [by eapply Hr|].
      injection Hin as -> ->. eapply (Hw i (url, k)). by eapply list_elem_of_lookup_2.
    + intros i' x Hin. eapply Hw. by eapply list_elem_of_delete_inv.
Qed.

Lemma confined_exec {A} allowed schedule (l l' : loop World A) :
  exec schedule l = Some l' → confined allowed l → confined allowed l'.
Proof.
  revert l. induction schedule as [|e schedule IH]; intros l; simpl.
  - by intros [= <-].
  - destruct (loop_step _ _ e l) as [l1|] eqn:Hstep; [|done]. intros Hrun Hinv.
    eapply IH; [done|]. by eapply confined_step.
Qed.

(** X14.  When a batch run has ended, [ALREADY_PROCESSED] is the set it
    was before together with the homepages of the URLs of the run: each of
    them has been added, and nothing else. *)
Theorem X14_set_after_run (urls : list string) (schedule : list event)
    (p p' : process World) (results : list (option (string * option string))) :
  gather World session_get (map visit urls) schedule p = Some (Returns results, p') →
  (∀ url, url ∈ urls → ∃ h, home url = Returns h) ∧
  ∀ x, x ∈ ALREADY_PROCESSED p' ↔
       x ∈ ALREADY_PROCESSED p ∨ ∃ url, url ∈ urls ∧ home url = Returns x.
Proof.
  intros Hg. destruct (gather_adds _ _ _ _ _ _ _ _ _ Hg) as (Hsub & _ & Hall).
  split.
  { intros url [i Hi]%list_elem_of_lookup_1.
    destruct (gather_characterised _ _ _ _ _ _ _ _ _ Hg) as [_ HF].
    destruct (Forall2_lookup_l _ _ _ _ _ HF Hi) as (r & _ & Hexp).
    apply expected_returned in Hexp as (h & Hh & _). eauto. }
  apply gather_inv in Hg as (l & Hrun & _ & _ & ->).
  pose (homes := omap (λ url, match home url with
                              | Returns h => Some h
                              | Raises _ => None
                              end) urls).
  assert (∀ x, x ∈ homes ↔ ∃ url, url ∈ urls ∧ home url = Returns x) as Hhomes.
  { intros x. unfold homes. rewrite list_elem_of_omap. split.
    - intros (url & Hin & Hx). exists url. split; [done|].
      by destruct (extract_homepage urlsplit url); simplify_eq.
    - intros (url & Hin & Hx). exists url. split; [done|]. by rewrite Hx. }
  assert (ALREADY_PROCESSED (proc l) ⊆ ALREADY_PROCESSED p ∪ list_to_set homes) as Hin.
  { eapply (confined_exec _ _ _ _ Hrun). split; [|split]; simpl.
    - apply union_subseteq_l.
    - intros i c Hc%initial_ready. apply list_lookup_fmap_Some in Hc as (url & -> & Hurl).
      apply visit_within. intros h Hh.
      apply elem_of_union_r, elem_of_list_to_set, Hhomes.
      exists url. split; [by eapply list_elem_of_lookup_2 | done].
    - by intros ?? ?%elem_of_nil. }
  intros x. split.
  - intros Hx. apply Hin in Hx.
    apply elem_of_union in Hx as [Hx|Hx%elem_of_list_to_set%Hhomes]; [by left | by right].
  - intros [Hx|(url & Hurl & Hx)]; [by apply Hsub | by eapply Hall].
Qed.

End BatchSet.

(** ** The batch run on two URLs of one site, as an instance *)

Lemma pair_run_gather :
  EmailScraper.gather unit small_web
    (map (EmailScraper.process_website Urllib.urlsplit Urllib.urljoin)
       ["https://a.com/x"; "https://a.com/y"])
    pair_schedule (EmailScraper.fresh tt)
  = Some (Returns [Some ("https://a.com", Some "bob@a.com");
                   Some ("https://a.com", Some "bob@a.com")],
          after_both_visits).
Proof. vm_compute. reflexivity. Qed.

Lemma pair_run_report :
  EmailScraper.scrape_emails Urllib.urlsplit Urllib.urljoin unit small_web
    ["https://a.com/x"; "https://a.com/y"] pair_schedule (EmailScraper.fresh tt)
  = Some (Returns
            (EmailScraper.mkReport
               [["Website"; "Email"]; ["https://a.com"; "bob@a.com"];
                ["https://a.com"; "bob@a.com"]] None),
          after_both_visits).
Proof. vm_compute. reflexivity. Qed.

Lemma X11_results_follow_urls_witness :
  length [Some ("https://a.com", Some "bob@a.com");
          Some ("https://a.com", Some "bob@a.com")]
  = length ["https://a.com/x"; "https://a.com/y"] ∧
  ∀ i url r,
    ["https://a.com/x"; "https://a.com/y"] !! i = Some url →
    [Some ("https://a.com", Some "bob@a.com"); Some ("https://a.com", Some "bob@a.com")]
      !! i = Some r →
    site_result_ok Urllib.urlsplit url r.
Proof.
  exact (X11_results_follow_urls Urllib.urlsplit Urllib.urljoin unit small_web
           _ _ _ _ _ pair_run_gather).
Defined.

Lemma X12_report_rows_witness :
  ∃ data,
    [["Website"; "Email"]; ["https://a.com"; "bob@a.com"]; ["https://a.com"; "bob@a.com"]]
    = ["Website"; "Email"] :: data ∧
    ∀ row, row ∈ data →
           ∃ url h e,
             url ∈ ["https://a.com/x"; "https://a.com/y"] ∧
             EmailScraper.extract_homepage Urllib.urlsplit url = Returns h ∧
             row = [h; e] ∧ Str.contains "@" e = true.
Proof.
  exact (X12_report_rows Urllib.urlsplit Urllib.urljoin unit small_web
           _ _ _ _ _ pair_run_report).
Defined.

Lemma X13_rejected_url_aborts_run_witness :
  EmailScraper.scrape_emails Urllib.urlsplit Urllib.urljoin unit small_web
    ["https://a.com/x"; "http://[bad/x"] [EmailScraper.Step; EmailScraper.Step]
    (EmailScraper.fresh tt)
  = Some (Raises ValueError, EmailScraper.mkProcess ∅ tt ["https://a.com"]) ∧
  (∃ e', Raises ValueError = (Raises e' : result EmailScraper.report)) ∧
  EmailScraper.scrape_emails Urllib.urlsplit Urllib.urljoin unit small_web
    ["http://[bad/x"] [EmailScraper.Step] (EmailScraper.fresh tt)
  = Some (Raises ValueError, EmailScraper.fresh tt).
Proof.
  assert (EmailScraper.scrape_emails Urllib.urlsplit Urllib.urljoin unit small_web
            ["https://a.com/x"; "http://[bad/x"] [EmailScraper.Step; EmailScraper.Step]
            (EmailScraper.fresh tt)
          = Some (Raises ValueError, EmailScraper.mkProcess ∅ tt ["https://a.com"]))
    as Hrun by (vm_compute; reflexivity).
  assert (EmailScraper.extract_homepage Urllib.urlsplit "http://[bad/x" = Raises ValueError)
    as Hhome by (vm_compute; reflexivity).
  split; [exact Hrun|]. split.
  - exact (proj1 (X13_rejected_url_aborts_run Urllib.urlsplit Urllib.urljoin unit small_web
                    ["https://a.com/x"; "http://[bad/x"] 1 "http://[bad/x" ValueError
                    (EmailScraper.fresh tt) eq_refl Hhome) _ _ _ Hrun).
  - exact (proj2 (X13_rejected_url_aborts_run Urllib.urlsplit Urllib.urljoin unit small_web
                    ["http://[bad/x"] 0 "http://[bad/x" ValueError
                    (EmailScraper.fresh tt) eq_refl Hhome)).
Defined.

Lemma X14_set_after_run_witness :
  (∀ url, url ∈ ["https://a.com/x"; "https://a.com/y"] →
          ∃ h, EmailScraper.extract_homepage Urllib.urlsplit url = Returns h) ∧
  ∀ x, x ∈ EmailScraper.ALREADY_PROCESSED after_both_visits ↔
       x ∈ EmailScraper.ALREADY_PROCESSED (EmailScraper.fresh tt) ∨
       ∃ url, url ∈ ["https://a.com/x"; "https://a.com/y"] ∧
              EmailScraper.extract_homepage Urllib.urlsplit url = Returns x.
Proof.
  exact (X14_set_after_run Urllib.urlsplit Urllib.urljoin unit small_web
           _ _ _ _ _ pair_run_gather).
Defined.

(** X16.  When the search returned no URL, [scrape_emails] makes no request
    and leaves the set alone; the report it writes has the header row and
    nothing else. *)
Theorem X16_no_urls
    (urlsplit : string → result Urllib.SplitResult)
    (urljoin : string → string → result string)
    (World : Type) (session_get : string → World → outcome * World)
    (p : EmailScraper.process World) :
  EmailScraper.scrape_emails urlsplit urljoin World session_get [] [] p
  = Some (Returns (EmailScraper.mkReport [["Website"; "Email"]] None), p) ∧
  ∀ schedule outcome p',
    EmailScraper.scrape_emails urlsplit urljoin World session_get [] schedule p
    = Some (outcome, p') →
    schedule = [] ∧
    outcome = Returns (EmailScraper.mkReport [["Website"; "Email"]] None) ∧ p' = p.
Proof.
  split; [done|]. intros schedule outcome p'.
  destruct schedule as [|[|j] schedule]; unfold EmailScraper.scrape_emails; simpl.
  - by intros [= <- <-].
  - done.
  - done.
Qed.

Lemma X16_no_urls_witness :
  [] = ([] : list EmailScraper.event) ∧
  Returns (EmailScraper.mkReport [["Website"; "Email"]] None)
  = Returns (EmailScraper.mkReport [["Website"; "Email"]] None) ∧
  after_first_run = after_first_run.
Proof.
  refine (proj2 (X16_no_urls Urllib.urlsplit Urllib.urljoin unit small_web after_first_run)
            [] _ _ _).
  vm_compute. reflexivity.
Defined.
